(** * youtube-agent-backend: transcript acquisition and summary glue

    A shallow embedding of [src/backend/utils.py]: the caption normalizer
    [clean_transcript], the transcript acquirer [get_transcript] and the
    summary generator [get_summary].

    Python strings are sequences of Unicode code points; a code point is a
    binary natural number.  The interpreter's Unicode tables (the decimal
    digits matched by the regular expression escape [\d], the white space
    removed by [str.strip], the mapping of [str.lower]) are not part of the
    repository: the embedding takes them as parameters.  The tables restricted
    to ASCII are given as [ascii_decimal], [ascii_space] and [ascii_lower];
    they serve wherever a definition has to be run on a concrete text. *)

From Stdlib Require Import List NArith String Ascii Bool Arith Lia.
Import ListNotations.

Local Open Scope list_scope.

(** ** Strings *)

Definition char := N.
Definition str := list char.

(** The text of an ASCII literal. *)
Definition py (s : string) : str := map N_of_ascii (list_ascii_of_string s).

Definition nl : char := 10%N.
Definition lt_sign : char := 60%N.
Definition gt_sign : char := 62%N.
Definition space : char := 32%N.

Definition ascii_decimal (c : char) : bool := ((48 <=? c) && (c <=? 57))%N.

Definition ascii_space (c : char) : bool :=
  (((9 <=? c) && (c <=? 13)) || ((28 <=? c) && (c <=? 32)))%N.

Definition ascii_lower_char (c : char) : char :=
  if ((65 <=? c) && (c <=? 90))%N then (c + 32)%N else c.

Definition ascii_lower (s : str) : str := map ascii_lower_char s.

Fixpoint str_eqb (a b : str) : bool :=
  match a, b with
  | [], [] => true
  | x :: a', y :: b' => N.eqb x y && str_eqb a' b'
  | _, _ => false
  end.

(** [startswith p s]: [s.startswith(p)]. *)
Fixpoint startswith (p s : str) : bool :=
  match p, s with
  | [], _ => true
  | x :: p', y :: s' => N.eqb x y && startswith p' s'
  | _ :: _, [] => false
  end.

(** [contains p s]: the Python test [p in s] on two strings. *)
Fixpoint contains (p s : str) : bool :=
  startswith p s ||
  match s with
  | [] => false
  | _ :: s' => contains p s'
  end.

(** [endswith p s]: [s.endswith(p)]. *)
Definition endswith (p s : str) : bool := startswith (rev p) (rev s).

(** [join sep l]: [sep.join(l)]. *)
Fixpoint join (sep : str) (l : list str) : str :=
  match l with
  | [] => []
  | [x] => x
  | x :: rest => x ++ sep ++ join sep rest
  end.

Fixpoint dropwhile (f : char -> bool) (s : str) : str :=
  match s with
  | [] => []
  | c :: r => if f c then dropwhile f r else s
  end.

(** [leading f s]: the text [s] does not start with a character of [f]. *)
Definition leading (f : char -> bool) (s : str) : Prop :=
  match s with
  | [] => True
  | c :: _ => f c = false
  end.

(** ** Regular expressions

    The four patterns of [clean_transcript] are sequences of character
    classes, each taken once, a fixed number of times, or one or more times
    (greedy).  [match_items] is the backtracking matcher of [re] on such a
    sequence, anchored at the start of the text: it yields the number of
    characters of the match that [re] finds first. *)

Inductive cls : Type :=
| Digit                 (* \d *)
| Lit (c : char)        (* a literal character *)
| NotLit (c : char).    (* [^c] *)

Inductive item : Type :=
| One (k : cls)             (* k *)
| Rep (k : cls) (n : nat)   (* k{n} *)
| Plus (k : cls).           (* k+ *)

Definition pattern := list item.

(** [mentions c p]: the pattern [p] has an item that only the literal
    character [c] matches. *)
Definition mentions (c : char) (p : pattern) : bool :=
  existsb (fun it =>
             match it with
             | One (Lit a) => N.eqb a c
             | Plus (Lit a) => N.eqb a c
             | Rep (Lit a) (S _) => N.eqb a c
             | _ => false
             end) p.

(** [starts_with_char p]: the first item of [p] takes at least one
    character. *)
Definition starts_with_char (p : pattern) : bool :=
  match p with
  | One _ :: _ => true
  | Rep _ (S _) :: _ => true
  | Plus _ :: _ => true
  | _ => false
  end.

Section Regex.

Variable is_decimal : char -> bool.

Definition in_cls (k : cls) (c : char) : bool :=
  match k with
  | Digit => is_decimal c
  | Lit a => N.eqb c a
  | NotLit a => negb (N.eqb c a)
  end.

(** Zero or more characters of class [k], as many as possible, giving
    characters back one at a time while the rest of the pattern [cont]
    fails. *)
Fixpoint star (k : cls) (cont : str -> option nat) (s : str) : option nat :=
  match s with
  | [] => cont []
  | c :: r =>
      if in_cls k c then
        match star k cont r with
        | Some n => Some (S n)
        | None => cont s
        end
      else cont s
  end.

(** Exactly [n] characters of class [k]. *)
Fixpoint exactly (k : cls) (n : nat) (cont : str -> option nat) (s : str)
  : option nat :=
  match n with
  | O => cont s
  | S n' =>
      match s with
      | [] => None
      | c :: r =>
          if in_cls k c then option_map S (exactly k n' cont r) else None
      end
  end.

Fixpoint match_items (p : pattern) : str -> option nat :=
  match p with
  | [] => fun _ => Some O
  | One k :: rest => exactly k 1 (match_items rest)
  | Rep k n :: rest => exactly k n (match_items rest)
  | Plus k :: rest =>
      fun s =>
        match s with
        | [] => None
        | c :: r =>
            if in_cls k c
            then option_map S (star k (match_items rest) r)
            else None
        end
  end.

(** [re_sub_aux p repl skip s]: the scan of [re.sub]; [skip] characters of
    the match in progress are still to be dropped.  A match of the patterns
    used here is never empty. *)
Fixpoint re_sub_aux (p : pattern) (repl : str) (skip : nat) (s : str) : str :=
  match s with
  | [] => []
  | c :: r =>
      match skip with
      | S k => re_sub_aux p repl k r
      | O =>
          match match_items p s with
          | Some (S k) => repl ++ re_sub_aux p repl k r
          | _ => c :: re_sub_aux p repl O r
          end
      end
  end.

(** [re.sub(p, repl, s)]. *)
Definition re_sub (p : pattern) (repl : str) (s : str) : str :=
  re_sub_aux p repl O s.

End Regex.

(** r'\d+\n' *)
Definition sequence_number_re : pattern := [Plus Digit; One (Lit nl)].

(** r'\d{2}:\d{2}:\d{2},\d{3}' *)
Definition timestamp_items : pattern :=
  [Rep Digit 2; One (Lit 58%N); Rep Digit 2; One (Lit 58%N); Rep Digit 2;
   One (Lit 44%N); Rep Digit 3].

(** r'\d{2}:\d{2}:\d{2},\d{3} --> \d{2}:\d{2}:\d{2},\d{3}\n' *)
Definition timestamp_re : pattern :=
  timestamp_items
    ++ [One (Lit space); One (Lit 45%N); One (Lit 45%N); One (Lit gt_sign);
        One (Lit space)]
    ++ timestamp_items ++ [One (Lit nl)].

(** r'\n+' *)
Definition newlines_re : pattern := [Plus (Lit nl)].

(** r'<[^>]+>' *)
Definition tag_re : pattern :=
  [One (Lit lt_sign); Plus (NotLit gt_sign); One (Lit gt_sign)].

Section Tags.

Variable d : char -> bool.

(** The end of a tag: the pattern r'>'. *)
Definition closing : str -> option nat := match_items d [One (Lit gt_sign)].

(** [no_tag t]: the pattern of a tag matches at no position of [t]. *)
Definition no_tag (t : str) : Prop :=
  forall a b, t = a ++ b -> match_items d tag_re b = None.

End Tags.

(** ** The caption normalizer *)

Section Normalizer.

Variable is_decimal : char -> bool.
Variable is_space : char -> bool.

(** [s.strip()] *)
Definition strip (s : str) : str :=
  rev (dropwhile is_space (rev (dropwhile is_space s))).

Definition clean_transcript (text : str) : str :=
  let text := re_sub is_decimal sequence_number_re [] text in
  let text := re_sub is_decimal timestamp_re [] text in
  let text := re_sub is_decimal newlines_re [space] text in
  let text := re_sub is_decimal tag_re [] text in
  let text := strip text in
  text.

End Normalizer.

Definition srt_example : str :=
  py "1" ++ [nl] ++ py "00:00:01,000 --> 00:00:02,000" ++ [nl]
     ++ py "Hello <b>world</b>" ++ [nl; nl]
     ++ py "2" ++ [nl] ++ py "00:00:02,000 --> 00:00:03,000" ++ [nl]
     ++ py "foo" ++ [nl].

(** ** Exceptions, results and the trace of external calls *)

(** The two classes of exception the program tells apart: [ValueError] (and
    its subclasses), which the request handler reports as a client fault, and
    every other subclass of [Exception].  The argument is [str(e)].  Every
    handler of the program is an [except Exception] or an [except ValueError]:
    the signals that derive from [BaseException] alone ([KeyboardInterrupt],
    [SystemExit]) end the request whatever the program does and are left
    out. *)
Inductive exn : Type :=
| ValueError (msg : str)
| OtherError (msg : str).

Definition str_of (e : exn) : str :=
  match e with
  | ValueError m => m
  | OtherError m => m
  end.

Inductive result (A : Type) : Type :=
| Ok (a : A)
| Raise (e : exn).

Arguments Ok {A} a.
Arguments Raise {A} e.

(** The request of [client.chat.completions.create]. *)
Record chat_request : Type := {
  model : str;
  messages : list (str * str);   (* role, content *)
  max_tokens : N;
  temperature : str              (* the decimal literal *)
}.

(** The calls that leave the process. *)
Inductive event : Type :=
| ExtractInfo (url : str)         (* ydl.extract_info(url, download=False) *)
| Download (url : str)            (* dl.download([url]) *)
| Fetch (url : str)               (* urllib.request.urlopen(url) *)
| ChatCompletion (r : chat_request).

(** A computation yields a value or raises, and leaves the trace of the
    external calls it made. *)
Definition M (A : Type) : Type := (result A * list event)%type.

Definition ret {A} (a : A) : M A := (Ok a, []).
Definition raise {A} (e : exn) : M A := (Raise e, []).
Definition lift {A} (r : result A) : M A := (r, []).
Definition call {A} (ev : event) (r : result A) : M A := (r, [ev]).

Definition bind {A B} (m : M A) (f : A -> M B) : M B :=
  match m with
  | (Ok a, l) => let (r, l') := f a in (r, l ++ l')
  | (Raise e, l) => (Raise e, l)
  end.

(** [try: m except Exception as e: h e] *)
Definition catch {A} (m : M A) (h : exn -> M A) : M A :=
  match m with
  | (Ok a, l) => (Ok a, l)
  | (Raise e, l) => let (r, l') := h e in (r, l ++ l')
  end.

Notation "x <- m ;; k" := (bind m (fun x => k))
  (at level 61, m at next level, right associativity).

(** ** The video platform and the text-generation service *)

(** One entry of a caption list: [sub.get('ext')] and [sub.get('url')]. *)
Record track : Type := {
  ext : option str;
  url : option str
}.

(** A caption map, in the order of its keys. *)
Definition caption_map := list (str * list track).

(** [info.get('subtitles', {})] and [info.get('automatic_captions', {})];
    [None] when the metadata holds Python's [None] under the key. *)
Record video_info : Type := {
  subtitles : option caption_map;
  automatic_captions : option caption_map
}.

Record world : Type := {
  new_ydl : result unit;                    (* yt_dlp.YoutubeDL(ydl_opts) *)
  extract_info : str -> result video_info;  (* lines 48-51 *)
  new_tempdir : result unit;                (* tempfile.TemporaryDirectory() *)
  (* dl.download([url]), then os.listdir(temp_dir): the names of the files
     and what reading each as UTF-8 gives *)
  download_subtitles : str -> result (list (str * result str));
  cleanup_tempdir : result unit;            (* leaving the with block *)
  urlopen : str -> result str;              (* urlopen(u).read().decode('utf-8') *)
  getenv_api_key : option str;              (* os.getenv("OPENAI_API_KEY") *)
  chat_completion : chat_request -> result str
}.

(** The tables of the interpreter's Unicode database. *)
Record unicode_db : Type := {
  is_decimal : char -> bool;
  is_space : char -> bool;
  lower : str -> str
}.

Definition ascii_db : unicode_db :=
  {| is_decimal := ascii_decimal; is_space := ascii_space; lower := ascii_lower |}.

(** A database agrees with ASCII below 128 on digits and white space. *)
Definition ascii_compatible (U : unicode_db) : Prop :=
  forall c, (c < 128)%N ->
            is_decimal U c = ascii_decimal c /\ is_space U c = ascii_space c.

Fixpoint lookup {A} (k : str) (m : list (str * A)) : option A :=
  match m with
  | [] => None
  | (k', v) :: rest => if str_eqb k k' then Some v else lookup k rest
  end.

Definition keys {A} (m : list (str * A)) : list str := map fst m.

(** The truth value of [transcript_text]: neither [None] nor empty. *)
Definition truthy (t : option str) : bool :=
  match t with
  | Some (_ :: _) => true
  | _ => false
  end.

Definition manual_langs : list str := [py "en"; py "en-US"; py "en-GB"; py "en-CA"].
Definition automatic_langs : list str := [py "en"; py "en-US"; py "en-GB"].

Definition ext_ok (sub : track) : bool :=
  match ext sub with
  | Some e => str_eqb e (py "srt") || str_eqb e (py "vtt")
  | None => false
  end.

(** The entry of a caption list that the loop over it fetches: the first one
    in the format srt or vtt with a locator that is not empty. *)
Fixpoint first_usable (tracks : list track) : option str :=
  match tracks with
  | [] => None
  | sub :: rest =>
      if ext_ok sub then
        match url sub with
        | Some (c :: u) => Some (c :: u)
        | _ => first_usable rest
        end
      else first_usable rest
  end.

Definition private_message : str :=
  py "This video is private and cannot be accessed.".

Definition too_short_message : str :=
  py "Retrieved transcript is empty or too short.".

Definition could_not_process : str := py "Could not process video: ".

Definition placeholder_key : str := py "your_openai_api_key_here".

Definition no_captions_at_all : str :=
  py "No captions available for this video. The video may not have subtitles.".

Definition no_english_prefix : str :=
  py "No English captions available. Available languages: ".

Section Acquirer.

Variable U : unicode_db.
Variable w : world.

(** Lines 53-67: the message for a failed metadata query. *)
Definition info_error_message (e : str) : str :=
  let error_msg := lower U e in
  if contains (py "private video") error_msg then
    private_message
  else if contains (py "video unavailable") error_msg
          || contains (py "unavailable") error_msg then
    py "This video is no longer available."
  else if contains (py "age-restricted") error_msg
          || contains (py "age restricted") error_msg then
    py "This video is age-restricted and cannot be processed."
  else if contains (py "not available") error_msg then
    py "This video is not available in your region or has been removed."
  else if contains (py "blocked") error_msg then
    py "This video is blocked and cannot be accessed."
  else py "Could not access video: " ++ e.

(** Lines 80-104: the download into a temporary directory. *)
Definition primary_path (video : str) : M (option str) :=
  _ <- lift (new_tempdir w) ;;
  text <- catch
    (files <- call (Download video) (download_subtitles w video) ;;
     match find (fun f => endswith (py ".srt") (fst f)) files with
     | Some (_, content) => t <- lift content ;; ret (Some t)
     | None => ret None
     end)
    (fun _ => ret None) ;;
  _ <- lift (cleanup_tempdir w) ;;
  ret text.

(** Lines 116-125 (and 140-149): the loop over the entries of one
    language; [text] is [transcript_text] on entry. *)
Fixpoint tracks_loop (tracks : list track) (text : option str)
  : M (option str) :=
  match tracks with
  | [] => ret text
  | sub :: rest =>
      if ext_ok sub then
        match url sub with
        | Some (c :: u) =>
            body <- call (Fetch (c :: u)) (urlopen w (c :: u)) ;;
            ret (Some body)
        | _ => tracks_loop rest text
        end
      else tracks_loop rest text
  end.

(** Lines 111-130 (and 135-154): the loop over the preferred languages. *)
Fixpoint langs_loop (captions : caption_map) (langs : list str)
  (text : option str) : M (option str) :=
  match langs with
  | [] => ret text
  | lang :: rest =>
      match lookup lang captions with
      | None => langs_loop captions rest text
      | Some [] => langs_loop captions rest text
      | Some subtitle_info =>
          found <- catch
            (t <- tracks_loop subtitle_info text ;; ret (Some t))
            (fun _ => ret None) ;;
          match found with
          | Some t => if truthy t then ret t else langs_loop captions rest t
          | None => langs_loop captions rest text
          end
      end
  end.

(** Lines 107-154: direct access, manual subtitles before automatic
    captions. *)
Definition direct_access (subs autos : caption_map) (text : option str)
  : M (option str) :=
  if truthy text then ret text
  else
    text <- langs_loop subs manual_langs text ;;
    if truthy text then ret text
    else langs_loop autos automatic_langs text.

(** Lines 76-154: the download, then direct access. *)
Definition find_payload (video : str) (subs autos : caption_map)
  : M (option str) :=
  text <- primary_path video ;;
  direct_access subs autos text.

(** Lines 157-161. *)
Definition no_captions_message (subs autos : caption_map) : str :=
  let available_langs := keys subs ++ keys autos in
  match available_langs with
  | [] => no_captions_at_all
  | _ => no_english_prefix ++ join (py ", ") available_langs
  end.

(** Lines 165-171. *)
Definition finish (transcript_text : str) : M str :=
  let cleaned_transcript :=
    clean_transcript (is_decimal U) (is_space U) transcript_text in
  match cleaned_transcript with
  | [] => raise (ValueError too_short_message)
  | _ =>
      if List.length (strip (is_space U) cleaned_transcript) <? 10 then
        raise (ValueError too_short_message)
      else ret cleaned_transcript
  end.

Definition none_has_no_keys : exn :=
  OtherError (py "'NoneType' object has no attribute 'keys'").

(** Lines 76-161: from the metadata to the subtitle payload. *)
Definition acquire (video : str) (info : video_info) : M str :=
  subs <- match subtitles info with
          | Some m => ret m
          | None => raise none_has_no_keys
          end ;;
  autos <- match automatic_captions info with
           | Some m => ret m
           | None => raise none_has_no_keys
           end ;;
  text <- find_payload video subs autos ;;
  match text with
  | Some (c :: t) => ret (c :: t)
  | _ => raise (ValueError (no_captions_message subs autos))
  end.

(** Lines 30-171: the body of the outer [try]. *)
Definition get_transcript_body (video : str) : M str :=
  _ <- lift (new_ydl w) ;;
  info <- catch
    (call (ExtractInfo video) (extract_info w video))
    (fun e => raise (ValueError (info_error_message (str_of e)))) ;;
  transcript_text <- acquire video info ;;
  finish transcript_text.

Definition get_transcript (video : str) : M str :=
  catch (get_transcript_body video)
    (fun e =>
       match e with
       | ValueError _ => raise e
       | OtherError m => raise (ValueError (could_not_process ++ m))
       end).

(** ** The summary generator *)

Definition key_not_configured : str :=
  py "OpenAI API key not configured. Please set OPENAI_API_KEY environment variable.".

(** The client is known by its key. *)
Definition get_openai_client : result str :=
  match getenv_api_key w with
  | None => Raise (ValueError key_not_configured)
  | Some [] => Raise (ValueError key_not_configured)
  | Some api_key =>
      if str_eqb api_key placeholder_key
      then Raise (ValueError key_not_configured)
      else Ok api_key
  end.

Definition max_chars : N := 8000.
Definition truncation_marker : str := py "... [transcript truncated]".

(** Lines 185-187. *)
Definition truncate (transcript : str) : str :=
  if (max_chars <? N.of_nat (List.length transcript))%N
  then firstn (N.to_nat max_chars) transcript ++ truncation_marker
  else transcript.

Definition summary_request (transcript : str) : chat_request :=
  {| model := py "gpt-4";
     messages :=
       [(py "system",
         py "You are a helpful summarizer. Create a concise but comprehensive summary of the video transcript.");
        (py "user",
         py "Summarize this video transcript:" ++ [nl; nl] ++ transcript)];
     max_tokens := 500;
     temperature := py "0.3" |}.

(** Lines 200-208. *)
Definition summary_error (e : str) : exn :=
  if contains (py "OpenAI API key not configured") e then
    ValueError key_not_configured
  else if contains (py "insufficient_quota") e
          || contains (py "quota") (lower U e) then
    ValueError (py "OpenAI API quota exceeded. Please try again later.")
  else if contains (py "invalid_api_key") e
          || contains (py "authentication") (lower U e) then
    ValueError (py "OpenAI API authentication failed. Please check your API key.")
  else ValueError (py "Could not generate summary: " ++ e).

Definition get_summary (transcript : str) : M str :=
  catch
    (_ <- lift get_openai_client ;;
     let transcript := truncate transcript in
     call (ChatCompletion (summary_request transcript))
          (chat_completion w (summary_request transcript)))
    (fun e => raise (summary_error (str_of e))).

End Acquirer.

(** ** The agent and the request handler *)

(** The standard output of the process: what writing a text to it gives
    (an encoding that lacks a character raises a [UnicodeEncodeError], a
    [ValueError]; a closed pipe raises an [OSError]).  What is written is not
    part of the trace. *)
Definition console : Type := str -> result unit.

(** The line that [print("❌ Agent Error:", e)] writes: the two arguments with
    a space between them, and a newline. *)
Definition agent_error_line (e : exn) : str :=
  10060%N :: py " Agent Error: " ++ str_of e ++ [nl].

(** Lines 5-10 of agents.py: the body of the [try]. *)
Definition process_video_body (U : unicode_db) (w : world) (video : str)
  : M (str * str) :=
  transcript <- get_transcript U w video ;;
  summary <- get_summary U w transcript ;;
  ret (transcript, summary).

(** [process_video] of agents.py: the transcript, then its summary; an
    exception is printed and raised again, unless the [print] itself raises,
    in which case its exception takes the place of the first. *)
Definition process_video (U : unicode_db) (w : world) (stdout : console)
  (video : str) : M (str * str) :=
  catch
    (process_video_body U w video)
    (fun e => _ <- lift (stdout (agent_error_line e)) ;; raise e).

(** What the endpoint answers: the response of status 200, or the
    [HTTPException] raised. *)
Inductive http_response : Type :=
| Response (transcript summary : str)
| HTTPException (status_code : N) (detail : str).

Definition unexpected_error_detail : str :=
  py "An unexpected error occurred while processing the video. Please try again later.".

(** [analyze_video] of main.py, lines 77-90: the handler itself, without
    the validation of the request and of the response that the framework
    performs around it. *)
Definition analyze_video (U : unicode_db) (w : world) (stdout : console)
  (video : str) : http_response * list event :=
  match process_video U w stdout video with
  | (Ok (transcript, summary), l) => (Response transcript summary, l)
  | (Raise (ValueError m), l) => (HTTPException 400 m, l)
  | (Raise (OtherError _), l) => (HTTPException 500 unexpected_error_detail, l)
  end.

(** ** Notions for the properties *)

(** [unmatched d p t]: the pattern [p] matches at no position of [t]. *)
Definition unmatched (d : char -> bool) (p : pattern) (t : str) : Prop :=
  forall a b, t = a ++ b -> match_items d p b = None.

(** [digits_then_newline d t]: [t] starts with zero or more digits followed
    by a newline. *)
Definition digits_then_newline (d : char -> bool) (t : str) : Prop :=
  exists a b, t = a ++ nl :: b /\ Forall (fun c => d c = true) a.

(** The pattern r'\n', which ends the pattern of the sequence numbers. *)
Definition newline_next (d : char -> bool) : str -> option nat :=
  match_items d [One (Lit nl)].

(** The calls of a trace that fetch a locator. *)
Definition is_fetch (ev : event) : bool :=
  match ev with
  | Fetch _ => true
  | _ => false
  end.

Definition is_chat (ev : event) : bool :=
  match ev with
  | ChatCompletion _ => true
  | _ => false
  end.

(** ** Texts and worlds of the examples *)

(** What [clean_transcript] makes of [srt_example]. *)
Definition srt_example_cleaned : str :=
  py "00:00:01,000 --> 00:00:02,Hello world 00:00:02,000 --> 00:00:03,foo".

Definition no_network : exn := OtherError (py "Network is unreachable").

(** A machine without network and without a key. *)
Definition offline : world :=
  {| new_ydl := Ok tt;
     extract_info := fun _ => Raise no_network;
     new_tempdir := Ok tt;
     download_subtitles := fun _ => Raise no_network;
     cleanup_tempdir := Ok tt;
     urlopen := fun _ => Raise no_network;
     getenv_api_key := None;
     chat_completion := fun _ => Raise no_network |}.

Definition with_extract_info (f : str -> result video_info) (w : world) : world :=
  {| new_ydl := new_ydl w;
     extract_info := f;
     new_tempdir := new_tempdir w;
     download_subtitles := download_subtitles w;
     cleanup_tempdir := cleanup_tempdir w;
     urlopen := urlopen w;
     getenv_api_key := getenv_api_key w;
     chat_completion := chat_completion w |}.

Definition with_new_tempdir (r : result unit) (w : world) : world :=
  {| new_ydl := new_ydl w;
     extract_info := extract_info w;
     new_tempdir := r;
     download_subtitles := download_subtitles w;
     cleanup_tempdir := cleanup_tempdir w;
     urlopen := urlopen w;
     getenv_api_key := getenv_api_key w;
     chat_completion := chat_completion w |}.

Definition with_download (f : str -> result (list (str * result str)))
  (w : world) : world :=
  {| new_ydl := new_ydl w;
     extract_info := extract_info w;
     new_tempdir := new_tempdir w;
     download_subtitles := f;
     cleanup_tempdir := cleanup_tempdir w;
     urlopen := urlopen w;
     getenv_api_key := getenv_api_key w;
     chat_completion := chat_completion w |}.

Definition with_urlopen (f : str -> result str) (w : world) : world :=
  {| new_ydl := new_ydl w;
     extract_info := extract_info w;
     new_tempdir := new_tempdir w;
     download_subtitles := download_subtitles w;
     cleanup_tempdir := cleanup_tempdir w;
     urlopen := f;
     getenv_api_key := getenv_api_key w;
     chat_completion := chat_completion w |}.

Definition with_api_key (k : option str) (w : world) : world :=
  {| new_ydl := new_ydl w;
     extract_info := extract_info w;
     new_tempdir := new_tempdir w;
     download_subtitles := download_subtitles w;
     cleanup_tempdir := cleanup_tempdir w;
     urlopen := urlopen w;
     getenv_api_key := k;
     chat_completion := chat_completion w |}.

Definition some_video : str := py "https://www.youtube.com/watch?v=abc".

(** The platform reports a private video, in words that the later tests
    of the classification would match as well. *)
Definition private_world : world :=
  with_extract_info
    (fun _ => Raise (OtherError
       (py "ERROR: [youtube] abc: Private video. This video is unavailable and blocked")))
    offline.

(** The metadata arrive, without captions; the temporary directory cannot
    be made. *)
Definition no_captions_info : video_info :=
  {| subtitles := Some []; automatic_captions := Some [] |}.

Definition disk_full_world : world :=
  with_new_tempdir (Raise (OtherError (py "No space left on device")))
    (with_extract_info (fun _ => Ok no_captions_info) offline).

(** The download leaves a subtitle file that holds two words only. *)
Definition short_file_world : world :=
  with_download (fun _ => Ok [(py "Clip.en.srt", Ok (py "Hi there"))])
    (with_extract_info (fun _ => Ok no_captions_info) offline).

(** Captions in French and in German only. *)
Definition srt_track (u : str) : track :=
  {| ext := Some (py "srt"); url := Some u |}.

Definition foreign_info : video_info :=
  {| subtitles := Some [(py "fr", [srt_track (py "https://captions.example/fr")])];
     automatic_captions :=
       Some [(py "de", [srt_track (py "https://captions.example/de")])] |}.

Definition foreign_world : world :=
  with_extract_info (fun _ => Ok foreign_info) offline.

(** Manual subtitles in American and in British English, automatic captions
    in English; each locator answers with a text of its own. *)
Definition us_url : str := py "https://captions.example/manual/en-US".
Definition gb_url : str := py "https://captions.example/manual/en-GB".
Definition auto_url : str := py "https://captions.example/auto/en".

Definition us_body : str := py "Manual subtitles in American English".
Definition gb_body : str := py "Manual subtitles in British English".
Definition auto_body : str := py "Automatic captions in English".

Definition us_gb_subtitles : caption_map :=
  [(py "en-US", [srt_track us_url]); (py "en-GB", [srt_track gb_url])].

Definition en_automatic : caption_map := [(py "en", [srt_track auto_url])].

Definition captions_world : world :=
  with_urlopen
    (fun u =>
       if str_eqb u us_url then Ok us_body
       else if str_eqb u gb_url then Ok gb_body
       else if str_eqb u auto_url then Ok auto_body
       else Raise no_network)
    offline.

(** The key left as the placeholder of the sample configuration. *)
Definition placeholder_world : world :=
  with_api_key (Some placeholder_key) offline.

(** A transcript of 9000 characters. *)
Definition long_transcript : str := repeat 97%N (N.to_nat 9000).

(** A video whose download leaves a well-formed subtitle file. *)
Definition plain_srt : str :=
  py "Welcome to the channel" ++ [nl] ++ py "<i>today</i> we bake bread" ++ [nl].

Definition download_world : world :=
  with_download (fun _ => Ok [(py "Clip.en.vtt", Ok (py "WEBVTT"));
                              (py "Clip.en.srt", Ok plain_srt)])
    (with_extract_info (fun _ => Ok no_captions_info) offline).

Definition with_chat_completion (f : chat_request -> result str) (w : world)
  : world :=
  {| new_ydl := new_ydl w;
     extract_info := extract_info w;
     new_tempdir := new_tempdir w;
     download_subtitles := download_subtitles w;
     cleanup_tempdir := cleanup_tempdir w;
     urlopen := urlopen w;
     getenv_api_key := getenv_api_key w;
     chat_completion := f |}.

(** English captions are listed, but nothing can be downloaded or fetched. *)
Definition english_info : video_info :=
  {| subtitles := Some us_gb_subtitles;
     automatic_captions := Some en_automatic |}.

Definition unreachable_captions_world : world :=
  with_extract_info (fun _ => Ok english_info) offline.

(** A transcript of 9010 characters that starts as [long_transcript] does. *)
Definition longer_transcript : str := long_transcript ++ py " and so on".

(** The download succeeds, a key is set and the service answers. *)
Definition some_summary : str := py "A short talk about baking bread.".

Definition answering_world : world :=
  with_chat_completion (fun _ => Ok some_summary)
    (with_api_key (Some (py "sk-live-0123456789")) download_world).

(** The metadata hold Python's [None] under the key of the manual
    subtitles. *)
Definition null_subtitles_info : video_info :=
  {| subtitles := None; automatic_captions := Some en_automatic |}.

Definition null_subtitles_world : world :=
  with_extract_info (fun _ => Ok null_subtitles_info) captions_world.

(** Three standard outputs: one that takes every text, one with the ASCII
    encoding, and one whose pipe is closed. *)
Definition utf8_stdout : console := fun _ => Ok tt.

Definition ascii_stdout : console :=
  fun line =>
    if forallb (fun c => (c <? 128)%N) line then Ok tt
    else Raise (ValueError
      (py "'ascii' codec can't encode character '\u274c' in position 0: ordinal not in range(128)")).

Definition closed_stdout : console :=
  fun _ => Raise (OtherError (py "[Errno 32] Broken pipe")).

(** Manual subtitles in British English only, with two usable entries: the
    first locator cannot be reached, the second one answers. *)
Definition gb_broken_url : str := py "https://captions.example/manual/en-GB/old".

Definition gb_two_entries : caption_map :=
  [(py "en-GB", [srt_track gb_broken_url; srt_track gb_url])].

(** The locator of the British subtitles answers with an empty text. *)
Definition gb_empty_world : world :=
  with_urlopen
    (fun u => if str_eqb u gb_url then Ok [] else urlopen captions_world u)
    captions_world.

(** * Properties *)

(** ** The scan of [re.sub] *)

Section RegexFacts.

Variable d : char -> bool.

Lemma re_sub_aux_skipn (p : pattern) (repl : str) (k : nat) (s : str) :
  re_sub_aux d p repl k s = re_sub d p repl (skipn k s).
Proof.
  revert s; induction k as [|k IH]; intros s.
  - reflexivity.
  - destruct s as [|c r]; [reflexivity|]. simpl. apply IH.
Qed.

(** After a match the scan goes on behind it; elsewhere it moves one
    character on. *)
Lemma re_sub_cons (p : pattern) (repl : str) (c : char) (r : str) :
  re_sub d p repl (c :: r) =
  match match_items d p (c :: r) with
  | Some (S k) => repl ++ re_sub d p repl (skipn k r)
  | _ => c :: re_sub d p repl r
  end.
Proof.
  unfold re_sub at 1. cbn [re_sub_aux].
  destruct (match_items d p (c :: r)) as [[|k]|]; try reflexivity.
  now rewrite re_sub_aux_skipn.
Qed.

(** A pattern that starts with a character, or with one or more, has no
    empty match: so it is with the four patterns of [clean_transcript]. *)
Lemma match_not_empty (p : pattern) (s : str) :
  starts_with_char p = true -> match_items d p s <> Some 0.
Proof.
  destruct p as [|[k|k [|n]|k] p]; try discriminate; intros _;
    destruct s as [|c r]; cbn; try discriminate;
    destruct (in_cls d k c); try discriminate.
  - destruct (match_items d p r); discriminate.
  - destruct (exactly d k n (match_items d p) r); discriminate.
  - destruct (star d k (match_items d p) r); discriminate.
Qed.

Lemma patterns_not_empty :
  forallb starts_with_char
    [sequence_number_re; timestamp_re; newlines_re; tag_re] = true.
Proof. reflexivity. Qed.

(** Whatever the scan yields comes from the replacement or from the text. *)
Lemma re_sub_aux_In (p : pattern) (repl : str) (x : char) (s : str) :
  forall k, In x (re_sub_aux d p repl k s) -> In x repl \/ In x s.
Proof.
  induction s as [|c r IH]; intros k H; simpl in H.
  - contradiction.
  - destruct k as [|k].
    + destruct (match_items d p (c :: r)) as [[|n]|].
      * destruct H as [H|H]; [right; left; exact H|].
        destruct (IH _ H); [left|right; right]; assumption.
      * apply in_app_or in H. destruct H as [H|H]; [left; exact H|].
        destruct (IH _ H); [left|right; right]; assumption.
      * destruct H as [H|H]; [right; left; exact H|].
        destruct (IH _ H); [left|right; right]; assumption.
    + destruct (IH _ H); [left|right; right]; assumption.
Qed.

Lemma re_sub_delete_In (p : pattern) (x : char) (s : str) :
  In x (re_sub d p [] s) -> In x s.
Proof.
  intros H. destruct (re_sub_aux_In p [] x s 0 H) as [[]|H']. exact H'.
Qed.

(** What a successful [star] and [exactly] leave to the rest of the
    pattern is a suffix of the text. *)
Lemma star_cont (k : cls) (cont : str -> option nat) (s : str) (n : nat) :
  star d k cont s = Some n ->
  exists a b m, s = a ++ b /\ cont b = Some m.
Proof.
  revert n; induction s as [|c r IH]; intros n H; simpl in H.
  - exists [], [], n. split; [reflexivity | exact H].
  - destruct (in_cls d k c).
    + destruct (star d k cont r) as [n'|] eqn:E.
      * destruct (IH _ eq_refl) as (a & b & m & -> & Hb).
        exists (c :: a), b, m. split; [reflexivity | exact Hb].
      * exists [], (c :: r), n. split; [reflexivity | exact H].
    + exists [], (c :: r), n. split; [reflexivity | exact H].
Qed.

Lemma exactly_cont (k : cls) (cont : str -> option nat) (n : nat) :
  forall s m, exactly d k n cont s = Some m ->
  exists a b m', s = a ++ b /\ Forall (fun c => in_cls d k c = true) a
                 /\ List.length a = n /\ cont b = Some m'.
Proof.
  induction n as [|n IH]; intros s m H; simpl in H.
  - exists [], s, m. repeat split; [constructor | exact H].
  - destruct s as [|c r]; [discriminate|].
    destruct (in_cls d k c) eqn:Ec; [|discriminate].
    destruct (exactly d k n cont r) as [m'|] eqn:E; [|discriminate].
    destruct (IH _ _ E) as (a & b & m'' & -> & Ha & Hl & Hb).
    exists (c :: a), b, m''. repeat split.
    + constructor; assumption.
    + simpl. now rewrite Hl.
    + exact Hb.
Qed.

Lemma match_items_mentions (c : char) (p : pattern) :
  mentions c p = true ->
  forall s n, match_items d p s = Some n -> In c s.
Proof.
  induction p as [|it p IH]; intros Hm s n H; [discriminate|].
  simpl in Hm. apply orb_true_iff in Hm.
  destruct it as [k|k j|k].
  - simpl in H. destruct s as [|x r]; [discriminate|].
    destruct (in_cls d k x) eqn:Ex; [|discriminate].
    destruct (match_items d p r) as [m|] eqn:E; [|discriminate].
    destruct Hm as [Hm|Hm].
    + destruct k as [|a|a]; try discriminate.
      apply N.eqb_eq in Hm. simpl in Ex. apply N.eqb_eq in Ex.
      left. congruence.
    + right. eapply IH; eassumption.
  - simpl in H. destruct (exactly_cont _ _ _ _ _ H) as (a & b & m & -> & Ha & Hl & Hb).
    destruct Hm as [Hm|Hm].
    + destruct k as [|x|x]; try discriminate.
      destruct j as [|j]; [discriminate|].
      apply N.eqb_eq in Hm. destruct a as [|y a]; [discriminate|].
      inversion Ha as [|? ? Hy _]; subst. simpl in Hy.
      apply N.eqb_eq in Hy. left. exact Hy.
    + apply in_or_app. right. eapply IH; eassumption.
  - simpl in H. destruct s as [|x r]; [discriminate|].
    destruct (in_cls d k x) eqn:Ex; [|discriminate].
    destruct (star d k (match_items d p) r) as [m|] eqn:E; [|discriminate].
    destruct Hm as [Hm|Hm].
    + destruct k as [|a|a]; try discriminate.
      apply N.eqb_eq in Hm. simpl in Ex. apply N.eqb_eq in Ex.
      left. congruence.
    + destruct (star_cont _ _ _ _ E) as (a & b & m' & -> & Hb).
      right. apply in_or_app. right. eapply IH; eassumption.
Qed.

(** A text without a character the pattern needs is left as it is. *)
Lemma re_sub_absent (c : char) (p : pattern) (repl : str) (s : str) :
  mentions c p = true -> ~ In c s -> re_sub d p repl s = s.
Proof.
  intros Hm. unfold re_sub. induction s as [|x r IH]; intros Hn.
  - reflexivity.
  - simpl. destruct (match_items d p (x :: r)) as [[|n]|] eqn:E.
    + f_equal. apply IH. intros Hc. apply Hn. now right.
    + exfalso. apply Hn. eapply match_items_mentions; eassumption.
    + f_equal. apply IH. intros Hc. apply Hn. now right.
Qed.

Lemma star_total (k : cls) (s : str) :
  star d k (fun _ => Some 0) s <> None.
Proof.
  induction s as [|c r IH]; simpl; [discriminate|].
  destruct (in_cls d k c); [|discriminate].
  destruct (star d k (fun _ => Some 0) r); [discriminate | contradiction].
Qed.

Lemma newlines_match (c : char) (r : str) :
  match_items d newlines_re (c :: r) =
  if N.eqb c nl then option_map S (star d (Lit nl) (fun _ => Some 0) r)
  else None.
Proof. reflexivity. Qed.

(** After [re.sub(r'\n+', ' ', text)] no newline is left. *)
Lemma newlines_gone (s : str) :
  forall k, ~ In nl (re_sub_aux d newlines_re [space] k s).
Proof.
  induction s as [|c r IH]; intros k H; [exact H|].
  destruct k as [|k]; [|exact (IH _ H)].
  cbn [re_sub_aux] in H. rewrite newlines_match in H.
  destruct (N.eqb c nl) eqn:Ec.
  - destruct (star d (Lit nl) (fun _ => Some 0) r) as [n|] eqn:E.
    + cbn [option_map app] in H.
      destruct H as [H|H]; [discriminate | exact (IH _ H)].
    + exact (star_total _ _ E).
  - destruct H as [H|H].
    + apply N.eqb_neq in Ec. congruence.
    + exact (IH _ H).
Qed.

(** *** Markup tags *)

Lemma closing_cons (c : char) (r : str) :
  (closing d) (c :: r) = if N.eqb c gt_sign then Some 1 else None.
Proof. unfold closing. cbn. destruct (N.eqb c gt_sign); reflexivity. Qed.

Lemma tag_match_cons (c : char) (r : str) :
  match_items d tag_re (c :: r) =
  if N.eqb c lt_sign then
    match r with
    | [] => None
    | x :: r' =>
        if N.eqb x gt_sign then None
        else option_map S (option_map S (star d (NotLit gt_sign) (closing d) r'))
    end
  else None.
Proof.
  unfold closing. cbn. destruct (N.eqb c lt_sign); [|reflexivity].
  destruct r as [|x r']; [reflexivity|].
  destruct (N.eqb x gt_sign); reflexivity.
Qed.

(** The run of [[^>]+] ends at the first [>]. *)
Lemma star_closing_run (run rest : str) :
  ~ In gt_sign run ->
  star d (NotLit gt_sign) (closing d) (run ++ gt_sign :: rest)
  = Some (S (List.length run)).
Proof.
  induction run as [|x run IH]; intros Hn.
  - cbn [app star in_cls]. rewrite N.eqb_refl. cbn [negb].
    rewrite closing_cons, N.eqb_refl. reflexivity.
  - cbn [app star in_cls].
    destruct (N.eqb x gt_sign) eqn:Ex.
    + apply N.eqb_eq in Ex. exfalso. apply Hn. left. congruence.
    + cbn [negb]. rewrite IH; [reflexivity|].
      intros Hc. apply Hn. now right.
Qed.

Lemma star_closing_inv (s : str) :
  forall n, star d (NotLit gt_sign) (closing d) s = Some n ->
  exists run rest, s = run ++ gt_sign :: rest /\ ~ In gt_sign run
                   /\ n = S (List.length run).
Proof.
  induction s as [|x r IH]; intros n H.
  - discriminate.
  - cbn [star in_cls] in H. destruct (N.eqb x gt_sign) eqn:Ex.
    + cbn [negb] in H. rewrite closing_cons, Ex in H.
      apply N.eqb_eq in Ex. subst x. injection H as <-.
      exists [], r. repeat split. intros [].
    + cbn [negb] in H.
      destruct (star d (NotLit gt_sign) (closing d) r) as [m|] eqn:E.
      * destruct (IH _ eq_refl) as (run & rest & -> & Hn & ->).
        injection H as <-. exists (x :: run), rest. repeat split.
        intros [Hc|Hc]; [|exact (Hn Hc)].
        apply N.eqb_neq in Ex. congruence.
      * rewrite closing_cons, Ex in H. discriminate.
Qed.

(** A tag: [<], one or more characters other than [>], then [>]. *)
Lemma tag_match_iff (s : str) (n : nat) :
  match_items d tag_re s = Some n <->
  exists x run rest,
    s = lt_sign :: x :: run ++ gt_sign :: rest /\ x <> gt_sign
    /\ ~ In gt_sign run /\ n = 3 + List.length run.
Proof.
  split.
  - destruct s as [|c r]; [discriminate|].
    rewrite tag_match_cons. destruct (N.eqb c lt_sign) eqn:Ec; [|discriminate].
    destruct r as [|x r']; [discriminate|].
    destruct (N.eqb x gt_sign) eqn:Ex; [discriminate|].
    destruct (star d (NotLit gt_sign) (closing d) r') as [m|] eqn:E; [|discriminate].
    intros H. injection H as <-.
    destruct (star_closing_inv _ _ E) as (run & rest & -> & Hn & ->).
    apply N.eqb_eq in Ec. apply N.eqb_neq in Ex. subst c.
    exists x, run, rest. repeat split; assumption.
  - intros (x & run & rest & -> & Hx & Hn & ->).
    rewrite tag_match_cons, N.eqb_refl.
    apply N.eqb_neq in Hx. rewrite Hx.
    rewrite star_closing_run by assumption. reflexivity.
Qed.

Lemma no_tag_nil : no_tag d [].
Proof.
  intros a b H. symmetry in H. apply app_eq_nil in H. destruct H as [_ ->].
  reflexivity.
Qed.

Lemma no_tag_cons (c : char) (t : str) :
  match_items d tag_re (c :: t) = None -> no_tag d t -> no_tag d (c :: t).
Proof.
  intros Hc Ht a b H. destruct a as [|x a].
  - simpl in H. subst b. exact Hc.
  - injection H as _ H. exact (Ht _ _ H).
Qed.

Lemma no_tag_suffix (a b : str) : no_tag d (a ++ b) -> no_tag d b.
Proof.
  intros H a' b' E. apply (H (a ++ a') b'). rewrite E. apply app_assoc.
Qed.

Lemma no_tag_prefix (a b : str) : no_tag d (a ++ b) -> no_tag d a.
Proof.
  intros H a' b' E.
  destruct (match_items d tag_re b') as [n|] eqn:M; [|reflexivity].
  apply tag_match_iff in M.
  destruct M as (x & run & rest & -> & Hx & Hn & ->).
  assert (M : match_items d tag_re
                ((lt_sign :: x :: run ++ gt_sign :: rest) ++ b)
              = Some (3 + List.length run)).
  { apply tag_match_iff. exists x, run, (rest ++ b). repeat split; try assumption.
    simpl. rewrite <- app_assoc. reflexivity. }
  rewrite (H a' _) in M; [discriminate|].
  rewrite E. symmetry. apply app_assoc.
Qed.

(** A text without tags is left as it is. *)
Lemma re_sub_no_tag (t : str) : no_tag d t -> re_sub d tag_re [] t = t.
Proof.
  unfold re_sub. induction t as [|c t IH]; intros H; [reflexivity|].
  cbn [re_sub_aux]. rewrite (H [] (c :: t) eq_refl).
  f_equal. apply IH. exact (no_tag_suffix [c] t H).
Qed.

Lemma re_sub_aux_nil_head (p : pattern) (c : char) (r : str) :
  match_items d p (c :: r) = None ->
  re_sub_aux d p [] 0 (c :: r) = c :: re_sub_aux d p [] 0 r.
Proof. intros H. cbn [re_sub_aux]. rewrite H. reflexivity. Qed.

(** What [re.sub(r'<[^>]+>', '', text)] yields has no tag left. *)
Lemma tags_gone (s : str) :
  forall k, no_tag d (re_sub_aux d tag_re [] k s).
Proof.
  induction s as [|c r IH]; intros k; [apply no_tag_nil|].
  destruct k as [|k]; [|exact (IH k)].
  cbn [re_sub_aux].
  destruct (match_items d tag_re (c :: r)) as [[|n]|] eqn:M.
  - apply tag_match_iff in M. destruct M as (? & ? & ? & _ & _ & _ & M).
    discriminate.
  - exact (IH n).
  - apply no_tag_cons; [|exact (IH 0)].
    destruct (match_items d tag_re (c :: re_sub_aux d tag_re [] 0 r))
      as [n|] eqn:M'; [|reflexivity].
    exfalso.
    apply tag_match_iff in M'.
    destruct M' as (x & run & rest & E & Hx & Hn & _).
    injection E as -> E.
    (* the text after [<] *)
    destruct r as [|y r']; [discriminate|].
    rewrite tag_match_cons, N.eqb_refl in M.
    destruct (N.eqb y gt_sign) eqn:Ey.
    + (* [<>]: the [>] is kept *)
      apply N.eqb_eq in Ey. subst y.
      rewrite re_sub_aux_nil_head in E.
      * injection E as E _. congruence.
      * rewrite tag_match_cons. reflexivity.
    + (* no [>] follows: none is there after the scan either *)
      assert (Hin : In gt_sign (y :: r')).
      { eapply (re_sub_delete_In tag_re). unfold re_sub. rewrite E.
        right. apply in_or_app. right. left. reflexivity. }
      destruct Hin as [Hin|Hin].
      { apply N.eqb_neq in Ey. congruence. }
      apply in_split in Hin. destruct Hin as (l1 & l2 & Hr).
      (* the first [>] of r' *)
      assert (F : exists run rest', r' = run ++ gt_sign :: rest'
                                    /\ ~ In gt_sign run).
      { clear - Hr. revert l2 r' Hr. induction l1 as [|z l1 IHl]; intros l2 r' Hr.
        - exists [], l2. split; [exact Hr | intros []].
        - subst r'. destruct (N.eq_dec z gt_sign) as [->|Hz].
          + exists [], (l1 ++ gt_sign :: l2). split; [reflexivity | intros []].
          + destruct (IHl l2 _ eq_refl) as (run & rest' & E & Hn).
            exists (z :: run), rest'. split.
            * simpl. now rewrite E.
            * intros [Hc|Hc]; [congruence | exact (Hn Hc)]. }
      destruct F as (run' & rest' & -> & Hn').
      rewrite star_closing_run in M by assumption. discriminate.
Qed.

End RegexFacts.

(** ** White space at the ends *)

Section StripFacts.

Variable f : char -> bool.

Lemma dropwhile_split (s : str) : exists a, s = a ++ dropwhile f s.
Proof.
  induction s as [|c r [a IH]].
  - exists []. reflexivity.
  - simpl. destruct (f c).
    + exists (c :: a). simpl. now rewrite <- IH.
    + exists []. reflexivity.
Qed.

Lemma dropwhile_leading (s : str) : leading f (dropwhile f s).
Proof.
  induction s as [|c r IH]; simpl; [exact I|].
  destruct (f c) eqn:E; [exact IH | exact E].
Qed.

Lemma dropwhile_id (s : str) : leading f s -> dropwhile f s = s.
Proof.
  destruct s as [|c r]; intros H; [reflexivity|].
  simpl in *. now rewrite H.
Qed.

(** [strip] keeps a piece of the text. *)
Lemma strip_split (s : str) : exists a b, s = a ++ strip f s ++ b.
Proof.
  unfold strip.
  destruct (dropwhile_split s) as [a Ha].
  destruct (dropwhile_split (rev (dropwhile f s))) as [b Hb].
  exists a, (rev b). rewrite <- rev_app_distr, <- Hb, rev_involutive.
  exact Ha.
Qed.

Lemma strip_leading (s : str) : leading f (strip f s).
Proof.
  unfold strip.
  destruct (dropwhile_split (rev (dropwhile f s))) as [b Hb].
  pose proof (dropwhile_leading s) as Hl.
  apply (f_equal (@rev char)) in Hb.
  rewrite rev_involutive, rev_app_distr in Hb.
  destruct (rev (dropwhile f (rev (dropwhile f s)))) as [|c t]; [exact I|].
  rewrite Hb in Hl. exact Hl.
Qed.

Lemma strip_trailing (s : str) : leading f (rev (strip f s)).
Proof.
  unfold strip. rewrite rev_involutive. apply dropwhile_leading.
Qed.

Lemma strip_id (s : str) : leading f s -> leading f (rev s) -> strip f s = s.
Proof.
  intros H1 H2. unfold strip.
  rewrite (dropwhile_id s H1), (dropwhile_id _ H2). apply rev_involutive.
Qed.

Lemma strip_In (x : char) (s : str) : In x (strip f s) -> In x s.
Proof.
  intros H. destruct (strip_split s) as (a & b & E). rewrite E.
  apply in_or_app. right. apply in_or_app. now left.
Qed.

End StripFacts.

(** ** The normalizer *)

Section NormalizerFacts.

Variable d : char -> bool.
Variable sp : char -> bool.

Lemma clean_no_newline (s : str) : ~ In nl (clean_transcript d sp s).
Proof.
  unfold clean_transcript. intros H.
  apply strip_In, re_sub_delete_In in H.
  exact (newlines_gone d _ 0 H).
Qed.

Lemma clean_no_tag (s : str) : no_tag d (clean_transcript d sp s).
Proof.
  unfold clean_transcript.
  set (t := re_sub d tag_re [] _).
  destruct (strip_split sp t) as (a & b & E).
  assert (H : no_tag d t) by apply tags_gone.
  rewrite E in H. apply no_tag_suffix, no_tag_prefix in H. exact H.
Qed.

(** A text without newline and without tag, with no white space at its
    ends, is a fixed point of the normalizer. *)
Lemma clean_fixed (t : str) :
  ~ In nl t -> no_tag d t -> leading sp t -> leading sp (rev t) ->
  clean_transcript d sp t = t.
Proof.
  intros Hn Ht H1 H2. unfold clean_transcript.
  rewrite (re_sub_absent d nl sequence_number_re [] t eq_refl Hn).
  rewrite (re_sub_absent d nl timestamp_re [] t eq_refl Hn).
  rewrite (re_sub_absent d nl newlines_re [space] t eq_refl Hn).
  rewrite (re_sub_no_tag d t Ht).
  apply strip_id; assumption.
Qed.

End NormalizerFacts.

(** ** Two databases that agree on the characters of a text *)

Section Agreement.

Variables d d' : char -> bool.
Variables sp sp' : char -> bool.
Variable Q : char -> Prop.
Hypothesis d_agree : forall c, Q c -> d c = d' c.
Hypothesis sp_agree : forall c, Q c -> sp c = sp' c.

Lemma in_cls_agree (k : cls) (c : char) : Q c -> in_cls d k c = in_cls d' k c.
Proof. intros H. destruct k; simpl; [apply d_agree; exact H | | ]; reflexivity. Qed.

Lemma star_agree (k : cls) (cont cont' : str -> option nat) :
  (forall t, Forall Q t -> cont t = cont' t) ->
  forall s, Forall Q s -> star d k cont s = star d' k cont' s.
Proof.
  intros Hc s. induction s as [|c r IH]; intros H.
  - simpl. apply Hc. constructor.
  - inversion H as [|? ? Hq Hr]; subst. simpl.
    rewrite (in_cls_agree k c Hq), (IH Hr), (Hc (c :: r) H). reflexivity.
Qed.

Lemma exactly_agree (k : cls) (cont cont' : str -> option nat) :
  (forall t, Forall Q t -> cont t = cont' t) ->
  forall n s, Forall Q s -> exactly d k n cont s = exactly d' k n cont' s.
Proof.
  intros Hc n. induction n as [|n IH]; intros s H.
  - simpl. apply Hc. exact H.
  - destruct s as [|c r]; [reflexivity|].
    inversion H as [|? ? Hq Hr]; subst. simpl.
    rewrite (in_cls_agree k c Hq), (IH r Hr). reflexivity.
Qed.

Lemma match_items_agree (p : pattern) :
  forall s, Forall Q s -> match_items d p s = match_items d' p s.
Proof.
  induction p as [|it p IH]; intros s H; [reflexivity|].
  destruct it as [k|k n|k]; simpl.
  - apply (exactly_agree k _ _ IH 1 s H).
  - apply (exactly_agree k _ _ IH n s H).
  - destruct s as [|c r]; [reflexivity|].
    inversion H as [|? ? Hq Hr]; subst.
    rewrite (in_cls_agree k c Hq), (star_agree k _ _ IH r Hr). reflexivity.
Qed.

Lemma re_sub_aux_agree (p : pattern) (repl : str) :
  forall s k, Forall Q s -> re_sub_aux d p repl k s = re_sub_aux d' p repl k s.
Proof.
  induction s as [|c r IH]; intros k H; [reflexivity|].
  inversion H as [|? ? Hq Hr]; subst.
  destruct k as [|k]; cbn [re_sub_aux].
  - rewrite (match_items_agree p (c :: r) H).
    destruct (match_items d' p (c :: r)) as [[|n]|]; rewrite IH by exact Hr;
      reflexivity.
  - apply IH. exact Hr.
Qed.

Lemma re_sub_Forall (p : pattern) (repl : str) (s : str) :
  Forall Q repl -> Forall Q s -> Forall Q (re_sub d p repl s).
Proof.
  intros Hr Hs. apply Forall_forall. intros x Hx.
  destruct (re_sub_aux_In d p repl x s 0 Hx) as [H|H].
  - exact (proj1 (Forall_forall Q repl) Hr x H).
  - exact (proj1 (Forall_forall Q s) Hs x H).
Qed.

Lemma dropwhile_agree (s : str) :
  Forall Q s -> dropwhile sp s = dropwhile sp' s /\ Forall Q (dropwhile sp s).
Proof.
  induction s as [|c r IH]; intros H; [split; [reflexivity | constructor]|].
  inversion H as [|? ? Hq Hr]; subst. simpl.
  rewrite <- (sp_agree c Hq). destruct (sp c).
  - exact (IH Hr).
  - split; [reflexivity | exact H].
Qed.

Lemma strip_agree (s : str) : Forall Q s -> strip sp s = strip sp' s.
Proof.
  intros H. unfold strip.
  destruct (dropwhile_agree s H) as [E1 F1]. rewrite <- E1.
  apply Forall_rev in F1.
  destruct (dropwhile_agree _ F1) as [E2 _]. now rewrite E2.
Qed.

Lemma clean_transcript_agree (s : str) :
  Q space -> Forall Q s ->
  clean_transcript d sp s = clean_transcript d' sp' s.
Proof.
  intros Hsp H. unfold clean_transcript, re_sub.
  assert (H1 : Forall Q (re_sub d sequence_number_re [] s))
    by (apply re_sub_Forall; [constructor | exact H]).
  assert (H2 : Forall Q (re_sub d timestamp_re [] (re_sub d sequence_number_re [] s)))
    by (apply re_sub_Forall; [constructor | exact H1]).
  assert (H3 : Forall Q (re_sub d newlines_re [space]
                           (re_sub d timestamp_re []
                              (re_sub d sequence_number_re [] s))))
    by (apply re_sub_Forall; [repeat constructor; exact Hsp | exact H2]).
  assert (H4 : Forall Q (re_sub d tag_re []
                           (re_sub d newlines_re [space]
                              (re_sub d timestamp_re []
                                 (re_sub d sequence_number_re [] s)))))
    by (apply re_sub_Forall; [constructor | exact H3]).
  unfold re_sub in *.
  rewrite (strip_agree _ H4).
  rewrite (re_sub_aux_agree tag_re [] _ 0 H3).
  rewrite (re_sub_aux_agree newlines_re [space] _ 0 H2).
  rewrite (re_sub_aux_agree timestamp_re [] _ 0 H1).
  rewrite (re_sub_aux_agree sequence_number_re [] _ 0 H).
  reflexivity.
Qed.

End Agreement.

(** On an ASCII text every compatible database normalizes as the ASCII
    tables do. *)
Lemma clean_transcript_ascii (U : unicode_db) (s : str) :
  ascii_compatible U ->
  Forall (fun c => (c < 128)%N) s ->
  clean_transcript (is_decimal U) (is_space U) s
  = clean_transcript ascii_decimal ascii_space s.
Proof.
  intros HU Hs.
  apply (clean_transcript_agree _ _ _ _ (fun c => (c < 128)%N)).
  - intros c Hc. exact (proj1 (HU c Hc)).
  - intros c Hc. exact (proj2 (HU c Hc)).
  - reflexivity.
  - exact Hs.
Qed.

(** ** Computations *)

Lemma bind_Ok {A B} (m : M A) (f : A -> M B) (b : B) (l : list event) :
  bind m f = (Ok b, l) ->
  exists a l1 l2, m = (Ok a, l1) /\ f a = (Ok b, l2) /\ l = l1 ++ l2.
Proof.
  unfold bind. destruct m as [[a|e] l1]; [|discriminate].
  destruct (f a) as [r l2] eqn:E. intros H. injection H as -> <-.
  exists a, l1, l2. repeat split. exact E.
Qed.

(** ** The definitions at work *)

Example clean_plain_lines :
  clean_transcript ascii_decimal ascii_space plain_srt
  = py "Welcome to the channel today we bake bread".
Proof. reflexivity. Qed.

Example clean_sequence_numbers :
  clean_transcript ascii_decimal ascii_space
    (py "1" ++ [nl] ++ py "Hello" ++ [nl; nl] ++ py "2" ++ [nl] ++ py "foo" ++ [nl])
  = py "Hello foo".
Proof. reflexivity. Qed.

(** The pattern of the sequence numbers takes the digits that end a line of
    prose as well. *)
Example clean_line_ending_in_digits :
  clean_transcript ascii_decimal ascii_space
    (py "born in 1984" ++ [nl] ++ py "in May" ++ [nl])
  = py "born in in May".
Proof. reflexivity. Qed.

(** The timestamp pattern on a timestamp line that the first substitution
    has not touched. *)
Example timestamp_line_alone :
  re_sub ascii_decimal timestamp_re []
    (py "a" ++ [nl] ++ py "00:00:01,000 --> 00:00:02,000" ++ [nl] ++ py "b")
  = py "a" ++ [nl] ++ py "b".
Proof. reflexivity. Qed.

Example tags_nested :
  clean_transcript ascii_decimal ascii_space (py "  <<b>>a <i>b</i> <> c> ")
  = py ">a b <> c>".
Proof. reflexivity. Qed.

Example get_transcript_download :
  get_transcript ascii_db download_world some_video
  = (Ok (py "Welcome to the channel today we bake bread"),
     [ExtractInfo some_video; Download some_video]).
Proof. reflexivity. Qed.

Example get_transcript_direct_access :
  get_transcript ascii_db
    (with_extract_info
       (fun _ => Ok {| subtitles := Some us_gb_subtitles;
                       automatic_captions := Some en_automatic |})
       captions_world)
    some_video
  = (Ok us_body,
     [ExtractInfo some_video; Download some_video; Fetch us_url]).
Proof. reflexivity. Qed.

(** * Main results *)

Lemma srt_example_ascii : Forall (fun c => (c < 128)%N) srt_example.
Proof.
  apply Forall_forall. intros c Hc.
  assert (H : forallb (fun c => (c <? 128)%N) srt_example = true) by reflexivity.
  apply N.ltb_lt. exact (proj1 (forallb_forall _ _) H c Hc).
Qed.

(** C2: on the subtitle text of the specification's example,
    "1\n00:00:01,000 --> 00:00:02,000\nHello <b>world</b>\n\n2\n00:00:02,000 -->
    00:00:03,000\nfoo\n", [clean_transcript] does not yield "Hello world foo":
    the pattern of the sequence numbers, which is not anchored at the start of
    a line, first removes the milliseconds and the newline that end each
    timestamp line, after which the pattern of the timestamps matches nothing.
    The result is
    "00:00:01,000 --> 00:00:02,Hello world 00:00:02,000 --> 00:00:03,foo". *)
Theorem clean_transcript_srt_example (U : unicode_db) :
  ascii_compatible U ->
  clean_transcript (is_decimal U) (is_space U) srt_example = srt_example_cleaned
  /\ clean_transcript (is_decimal U) (is_space U) srt_example
     <> py "Hello world foo".
Proof.
  intros HU. rewrite (clean_transcript_ascii U _ HU srt_example_ascii).
  split; [reflexivity | discriminate].
Qed.

Lemma clean_transcript_srt_example_witness :
  clean_transcript ascii_decimal ascii_space srt_example = srt_example_cleaned
  /\ clean_transcript ascii_decimal ascii_space srt_example
     <> py "Hello world foo".
Proof.
  apply (clean_transcript_srt_example ascii_db).
  intros c _. split; reflexivity.
Defined.

(** C8: [clean_transcript] is idempotent: normalizing a normalized text gives
    it back, whatever the tables of digits and of white space. *)
Theorem clean_transcript_idempotent (d sp : char -> bool) (s : str) :
  clean_transcript d sp (clean_transcript d sp s) = clean_transcript d sp s.
Proof.
  apply clean_fixed.
  - apply clean_no_newline.
  - apply clean_no_tag.
  - unfold clean_transcript. apply strip_leading.
  - unfold clean_transcript. apply strip_trailing.
Qed.

(** C10: the text that [clean_transcript] yields has no newline, and neither
    its first nor its last character is white space. *)
Theorem clean_transcript_trimmed (d sp : char -> bool) (s : str) :
  ~ In nl (clean_transcript d sp s)
  /\ leading sp (clean_transcript d sp s)
  /\ leading sp (rev (clean_transcript d sp s)).
Proof.
  split; [apply clean_no_newline|].
  unfold clean_transcript. split; [apply strip_leading | apply strip_trailing].
Qed.

(** ** The acquirer *)

(** C6: when the metadata query fails with an error whose text, in lower case,
    contains "private video", [get_transcript] fails with a [ValueError] whose
    message is exactly the message for a private video, whatever else the text
    holds; nothing but the query was attempted. *)
Theorem private_video_message (U : unicode_db) (w : world) (video : str)
  (e : exn) :
  new_ydl w = Ok tt ->
  extract_info w video = Raise e ->
  contains (py "private video") (lower U (str_of e)) = true ->
  get_transcript U w video
  = (Raise (ValueError private_message), [ExtractInfo video]).
Proof.
  intros Hy He Hp.
  unfold get_transcript, get_transcript_body.
  rewrite Hy, He. unfold lift, call, raise, bind, catch.
  unfold info_error_message. rewrite Hp. reflexivity.
Qed.

Lemma private_video_message_witness :
  get_transcript ascii_db private_world some_video
  = (Raise (ValueError private_message), [ExtractInfo some_video]).
Proof.
  apply (private_video_message ascii_db private_world some_video
           (OtherError
              (py "ERROR: [youtube] abc: Private video. This video is unavailable and blocked")));
    reflexivity.
Defined.

(** C1: [get_transcript] returns or raises a [ValueError], never another
    exception.  A [ValueError] that reaches the outer handler passes as it is;
    any other exception that reaches it is raised again as a [ValueError]
    whose message is "Could not process video: " followed by its text. *)
Theorem unclassified_errors_wrapped (U : unicode_db) (w : world) (video : str) :
  (forall m l, get_transcript U w video <> (Raise (OtherError m), l))
  /\ (forall m l,
        get_transcript_body U w video = (Raise (OtherError m), l) ->
        get_transcript U w video
        = (Raise (ValueError (could_not_process ++ m)), l))
  /\ (forall m l,
        get_transcript_body U w video = (Raise (ValueError m), l) ->
        get_transcript U w video = (Raise (ValueError m), l)).
Proof.
  unfold get_transcript.
  destruct (get_transcript_body U w video) as [[t|[m|m]] l] eqn:E;
    unfold catch, raise; repeat split; intros; try discriminate;
    match goal with
    | H : (_, _) = (_, _) |- _ => injection H as <- <-
    end; rewrite app_nil_r; reflexivity.
Qed.

Lemma unclassified_errors_wrapped_witness :
  get_transcript ascii_db disk_full_world some_video
  = (Raise (ValueError (could_not_process ++ py "No space left on device")),
     [ExtractInfo some_video]).
Proof.
  apply (proj1 (proj2 (unclassified_errors_wrapped ascii_db disk_full_world
                         some_video))).
  reflexivity.
Defined.

Lemma finish_Ok (U : unicode_db) (p t : str) (l : list event) :
  finish U p = (Ok t, l) ->
  t = clean_transcript (is_decimal U) (is_space U) p
  /\ 10 <= List.length (strip (is_space U) t) /\ l = [].
Proof.
  unfold finish.
  destruct (clean_transcript (is_decimal U) (is_space U) p) as [|c r] eqn:E;
    [discriminate|].
  destruct (List.length (strip (is_space U) (c :: r)) <? 10) eqn:L;
    [discriminate|].
  intros H. injection H as <- <-. apply Nat.ltb_ge in L. auto.
Qed.

Lemma finish_short (U : unicode_db) (p : str) :
  List.length (strip (is_space U)
                 (clean_transcript (is_decimal U) (is_space U) p)) < 10 ->
  finish U p = (Raise (ValueError too_short_message), []).
Proof.
  intros H. unfold finish.
  destruct (clean_transcript (is_decimal U) (is_space U) p) as [|c r];
    [reflexivity|].
  apply Nat.ltb_lt in H. rewrite H. reflexivity.
Qed.

Lemma finish_long (U : unicode_db) (p : str) :
  10 <= List.length (strip (is_space U)
                       (clean_transcript (is_decimal U) (is_space U) p)) ->
  finish U p = (Ok (clean_transcript (is_decimal U) (is_space U) p), []).
Proof.
  intros H. unfold finish.
  destruct (clean_transcript (is_decimal U) (is_space U) p) as [|c r].
  - simpl in H. lia.
  - apply Nat.ltb_ge in H. rewrite H. reflexivity.
Qed.

(** The body of [get_transcript] once the metadata have arrived. *)
Lemma get_transcript_body_info (U : unicode_db) (w : world) (video : str)
  (info : video_info) :
  new_ydl w = Ok tt ->
  extract_info w video = Ok info ->
  get_transcript_body U w video
  = bind (call (ExtractInfo video) (Ok info))
         (fun info => bind (acquire w video info) (finish U)).
Proof.
  intros Hy He. unfold get_transcript_body. rewrite Hy, He.
  unfold lift, call, catch, bind.
  destruct (acquire w video info) as [[p|e] l];
    [destruct (finish U p) as [r l']|]; reflexivity.
Qed.

Lemma get_transcript_Ok (U : unicode_db) (w : world) (video : str) (t : str)
  (l : list event) :
  get_transcript U w video = (Ok t, l) ->
  exists p, finish U p = (Ok t, []).
Proof.
  unfold get_transcript.
  destruct (get_transcript_body U w video) as [[t'|e] l'] eqn:E.
  - intros H. injection H as -> ->.
    unfold get_transcript_body in E.
    apply bind_Ok in E. destruct E as (_ & _ & l2 & _ & E & _).
    apply bind_Ok in E. destruct E as (info & _ & l3 & _ & E & _).
    apply bind_Ok in E. destruct E as (p & _ & l4 & _ & E & _).
    exists p. destruct (finish_Ok U p t l4 E) as (_ & _ & ->). exact E.
  - unfold catch. destruct e; discriminate.
Qed.

(** C3: a text that [get_transcript] returns has at least 10 characters after
    stripping; and whatever the path that gave the subtitle payload, when the
    normalized payload is empty or shorter than 10 characters
    [get_transcript] raises the [ValueError] "Retrieved transcript is empty or
    too short.", and otherwise it returns the normalized payload. *)
Theorem short_transcript_rejected (U : unicode_db) (w : world) (video : str) :
  (forall t l,
      get_transcript U w video = (Ok t, l) ->
      10 <= List.length (strip (is_space U) t))
  /\ (forall info payload l,
        new_ydl w = Ok tt ->
        extract_info w video = Ok info ->
        acquire w video info = (Ok payload, l) ->
        let cleaned :=
          clean_transcript (is_decimal U) (is_space U) payload in
        (List.length (strip (is_space U) cleaned) < 10 ->
         get_transcript U w video
         = (Raise (ValueError too_short_message), ExtractInfo video :: l))
        /\ (10 <= List.length (strip (is_space U) cleaned) ->
            get_transcript U w video = (Ok cleaned, ExtractInfo video :: l))).
Proof.
  split.
  - intros t l H. destruct (get_transcript_Ok U w video t l H) as [p Hp].
    exact (proj1 (proj2 (finish_Ok U p t [] Hp))).
  - intros info payload l Hy He Ha cleaned.
    unfold get_transcript.
    rewrite (get_transcript_body_info U w video info Hy He).
    unfold call, bind. rewrite Ha.
    unfold cleaned. split; intros H.
    + rewrite (finish_short U payload H). unfold catch, raise.
      cbn [app]. repeat rewrite app_nil_r. reflexivity.
    + rewrite (finish_long U payload H). unfold catch.
      cbn [app]. repeat rewrite app_nil_r. reflexivity.
Qed.

Lemma short_transcript_rejected_witness :
  get_transcript ascii_db short_file_world some_video
  = (Raise (ValueError too_short_message),
     [ExtractInfo some_video; Download some_video]).
Proof.
  apply (proj1 (proj2 (short_transcript_rejected ascii_db short_file_world
                         some_video)
                 no_captions_info (py "Hi there") [Download some_video]
                 eq_refl eq_refl eq_refl)).
  vm_compute. lia.
Defined.

(** C5: when neither the download nor direct access gave a payload,
    [get_transcript] raises a [ValueError]; its message lists the language
    tags of the manual subtitles followed by those of the automatic captions
    when one of the two maps is not empty, and says that the video has no
    captions when both are empty. *)
Theorem no_payload_message (U : unicode_db) (w : world) (video : str)
  (info : video_info) (subs autos : caption_map) (text : option str)
  (l : list event) :
  new_ydl w = Ok tt ->
  extract_info w video = Ok info ->
  subtitles info = Some subs ->
  automatic_captions info = Some autos ->
  find_payload w video subs autos = (Ok text, l) ->
  truthy text = false ->
  get_transcript U w video
  = (Raise (ValueError (no_captions_message subs autos)), ExtractInfo video :: l)
  /\ (subs <> [] \/ autos <> [] ->
      no_captions_message subs autos
      = no_english_prefix ++ join (py ", ") (keys subs ++ keys autos))
  /\ (subs = [] -> autos = [] ->
      no_captions_message subs autos = no_captions_at_all)
  /\ (forall lang,
        In lang (keys subs ++ keys autos)
        <-> In lang (keys subs) \/ In lang (keys autos)).
Proof.
  intros Hy He Hs Ha Hf Ht. repeat split.
  - unfold get_transcript.
    rewrite (get_transcript_body_info U w video info Hy He).
    unfold call. unfold bind at 1. unfold acquire. rewrite Hs, Ha.
    unfold ret, raise, bind, catch. rewrite Hf.
    destruct text as [[|c t]|]; try discriminate;
      cbn [app]; repeat rewrite app_nil_r; reflexivity.
  - intros H. unfold no_captions_message.
    destruct (keys subs ++ keys autos) as [|k ks] eqn:E; [|reflexivity].
    apply app_eq_nil in E. destruct E as [E1 E2].
    unfold keys in E1, E2. apply map_eq_nil in E1, E2.
    destruct H as [H|H]; contradiction.
  - intros -> ->. reflexivity.
  - apply in_app_or.
  - apply in_or_app.
Qed.

Lemma no_payload_message_witness :
  get_transcript ascii_db foreign_world some_video
  = (Raise (ValueError
              (py "No English captions available. Available languages: fr, de")),
     [ExtractInfo some_video; Download some_video]).
Proof.
  apply (proj1 (no_payload_message ascii_db foreign_world some_video
                  foreign_info
                  [(py "fr", [srt_track (py "https://captions.example/fr")])]
                  [(py "de", [srt_track (py "https://captions.example/de")])]
                  None [Download some_video]
                  eq_refl eq_refl eq_refl eq_refl eq_refl eq_refl)).
Defined.

(** ** Direct access *)

(** The loop over the entries of one language fetches the first usable entry
    and nothing else. *)
Lemma tracks_loop_first_usable (w : world) (tracks : list track)
  (text : option str) :
  tracks_loop w tracks text =
  match first_usable tracks with
  | Some u => bind (call (Fetch u) (urlopen w u)) (fun body => ret (Some body))
  | None => ret text
  end.
Proof.
  induction tracks as [|sub rest IH]; [reflexivity|].
  cbn [tracks_loop first_usable].
  destruct (ext_ok sub); [|exact IH].
  destruct (url sub) as [[|c u]|]; [exact IH | reflexivity | exact IH].
Qed.

(** One language of the preference list, absent from the map. *)
Lemma langs_loop_absent (w : world) (captions : caption_map) (lang : str)
  (rest : list str) (text : option str) :
  lookup lang captions = None ->
  langs_loop w captions (lang :: rest) text = langs_loop w captions rest text.
Proof. intros H. cbn [langs_loop]. rewrite H. reflexivity. Qed.

(** One language whose first usable entry answers with a text that is not
    empty. *)
Lemma langs_loop_found (w : world) (captions : caption_map) (lang : str)
  (rest : list str) (text : option str) (tracks : list track) (u body : str) :
  lookup lang captions = Some tracks ->
  first_usable tracks = Some u ->
  urlopen w u = Ok body ->
  body <> [] ->
  langs_loop w captions (lang :: rest) text = (Ok (Some body), [Fetch u]).
Proof.
  intros Hl Hf Hu Hb. cbn [langs_loop]. rewrite Hl.
  destruct tracks as [|sub tracks']; [discriminate|].
  rewrite tracks_loop_first_usable, Hf, Hu.
  destruct body as [|c b]; [contradiction|]. reflexivity.
Qed.

(** C4 as stated fails, in three ways.  With manual subtitles for en-US and
    en-GB, none for en, and automatic captions for en, the payload is the
    text of the en-US entry, not that of the en-GB entry.  With manual
    subtitles for en-GB alone that hold two usable entries, the first of
    which cannot be fetched, the second entry is not tried and the payload is
    the text of the automatic captions.  With manual subtitles for en-GB
    alone whose one usable entry answers with an empty text, the payload is
    again the text of the automatic captions. *)
Lemma en_GB_not_always_the_payload :
  (lookup (py "en") us_gb_subtitles = None
   /\ lookup (py "en-GB") us_gb_subtitles = Some [srt_track gb_url]
   /\ first_usable [srt_track gb_url] = Some gb_url
   /\ urlopen captions_world gb_url = Ok gb_body
   /\ lookup (py "en") en_automatic = Some [srt_track auto_url]
   /\ direct_access captions_world us_gb_subtitles en_automatic None
      = (Ok (Some us_body), [Fetch us_url]))
  /\ (lookup (py "en") gb_two_entries = None
      /\ lookup (py "en-US") gb_two_entries = None
      /\ lookup (py "en-GB") gb_two_entries
         = Some [srt_track gb_broken_url; srt_track gb_url]
      /\ forallb ext_ok [srt_track gb_broken_url; srt_track gb_url] = true
      /\ urlopen captions_world gb_broken_url = Raise no_network
      /\ urlopen captions_world gb_url = Ok gb_body
      /\ direct_access captions_world gb_two_entries en_automatic None
         = (Ok (Some auto_body), [Fetch gb_broken_url; Fetch auto_url]))
  /\ (lookup (py "en") [(py "en-GB", [srt_track gb_url])] = None
      /\ lookup (py "en-US") [(py "en-GB", [srt_track gb_url])] = None
      /\ first_usable [srt_track gb_url] = Some gb_url
      /\ urlopen gb_empty_world gb_url = Ok []
      /\ direct_access gb_empty_world [(py "en-GB", [srt_track gb_url])]
           en_automatic None
         = (Ok (Some auto_body), [Fetch gb_url; Fetch auto_url])).
Proof. repeat split. Qed.

(** C4, amended: when the manual subtitles have neither en nor en-US, and
    have en-GB, and the first usable entry of the list under en-GB (the first
    one in the format srt or vtt with a locator that is not empty) is fetched
    and answers with a text that is not empty, direct access yields that text
    and fetches nothing else, whatever the automatic captions.  And in
    general, when the loop over the manual languages ends with a text that is
    not empty, direct access yields it with the trace of that loop alone: the
    loop over the automatic captions is not entered. *)
Theorem manual_outranks_automatic (w : world) (subs autos : caption_map)
  (text : option str) :
  truthy text = false ->
  (forall tracks u body,
      lookup (py "en") subs = None ->
      lookup (py "en-US") subs = None ->
      lookup (py "en-GB") subs = Some tracks ->
      first_usable tracks = Some u ->
      urlopen w u = Ok body ->
      body <> [] ->
      direct_access w subs autos text = (Ok (Some body), [Fetch u]))
  /\ (forall t l,
        langs_loop w subs manual_langs text = (Ok t, l) ->
        truthy t = true ->
        direct_access w subs autos text = (Ok t, l)).
Proof.
  intros Ht. assert (G : forall t l,
        langs_loop w subs manual_langs text = (Ok t, l) ->
        truthy t = true ->
        direct_access w subs autos text = (Ok t, l)).
  { intros t l Hl Hy. unfold direct_access. rewrite Ht.
    unfold bind. rewrite Hl, Hy. unfold ret. now rewrite app_nil_r. }
  split; [|exact G].
  intros tracks u body He Hus Hgb Hf Hu Hb. apply G.
  - unfold manual_langs.
    rewrite (langs_loop_absent w subs _ _ text He).
    rewrite (langs_loop_absent w subs _ _ text Hus).
    exact (langs_loop_found w subs _ _ text tracks u body Hgb Hf Hu Hb).
  - destruct body; [contradiction | reflexivity].
Qed.

Lemma manual_outranks_automatic_witness :
  direct_access captions_world [(py "en-GB", [srt_track gb_url])] en_automatic
    None
  = (Ok (Some gb_body), [Fetch gb_url]).
Proof.
  apply (proj1 (manual_outranks_automatic captions_world
                  [(py "en-GB", [srt_track gb_url])] en_automatic None
                  eq_refl)
           [srt_track gb_url] gb_url gb_body);
    try reflexivity.
  discriminate.
Defined.

(** ** The summary generator *)

Lemma truncation_marker_length : List.length truncation_marker = 26.
Proof. reflexivity. Qed.

Lemma truncate_long (t : str) :
  (max_chars < N.of_nat (List.length t))%N ->
  truncate t = firstn (N.to_nat max_chars) t ++ truncation_marker.
Proof. intros H. unfold truncate. apply N.ltb_lt in H. now rewrite H. Qed.

Lemma truncate_short (t : str) :
  (N.of_nat (List.length t) <= max_chars)%N -> truncate t = t.
Proof.
  intros H. unfold truncate.
  destruct (max_chars <? N.of_nat (List.length t))%N eqn:E; [|reflexivity].
  apply N.ltb_lt in E. lia.
Qed.

Lemma truncate_long_length (t : str) :
  (max_chars < N.of_nat (List.length t))%N ->
  N.of_nat (List.length (truncate t))
  = (max_chars + N.of_nat (List.length truncation_marker))%N.
Proof.
  intros H. rewrite (truncate_long t H), length_app, length_firstn.
  rewrite truncation_marker_length. unfold max_chars in *. lia.
Qed.

(** With a client, one request is issued, whatever its outcome. *)
Lemma get_summary_trace (U : unicode_db) (w : world) (t key : str) :
  get_openai_client w = Ok key ->
  snd (get_summary U w t) = [ChatCompletion (summary_request (truncate t))].
Proof.
  intros H. unfold get_summary. rewrite H.
  unfold lift, call, bind, catch, raise.
  destruct (chat_completion w (summary_request (truncate t))); reflexivity.
Qed.

(** C7: a transcript of more than 8000 characters is cut to its first 8000
    characters followed by the marker "... [transcript truncated]"; a
    transcript of at most 8000 characters is left as it is; in both cases the
    text has at most 8000 characters plus the length of the marker, and, when
    a client could be made, it is the text that the one request to the
    text-generation service carries after the fixed heading. *)
Theorem transcript_truncated (U : unicode_db) (w : world) (t : str) :
  ((max_chars < N.of_nat (List.length t))%N ->
   truncate t = firstn (N.to_nat max_chars) t ++ truncation_marker
   /\ N.of_nat (List.length (truncate t))
      = (max_chars + N.of_nat (List.length truncation_marker))%N)
  /\ ((N.of_nat (List.length t) <= max_chars)%N -> truncate t = t)
  /\ (N.of_nat (List.length (truncate t))
      <= max_chars + N.of_nat (List.length truncation_marker))%N
  /\ (forall key,
        get_openai_client w = Ok key ->
        snd (get_summary U w t) = [ChatCompletion (summary_request (truncate t))]
        /\ messages (summary_request (truncate t))
           = [(py "system",
               py "You are a helpful summarizer. Create a concise but comprehensive summary of the video transcript.");
              (py "user",
               py "Summarize this video transcript:" ++ [nl; nl] ++ truncate t)]).
Proof.
  repeat split.
  - apply truncate_long. assumption.
  - apply truncate_long_length. assumption.
  - apply truncate_short.
  - destruct (N.lt_ge_cases max_chars (N.of_nat (List.length t))) as [H|H].
    + rewrite (truncate_long_length t H). apply N.le_refl.
    + rewrite (truncate_short t H). lia.
  - eapply get_summary_trace. eassumption.
Qed.

Lemma transcript_truncated_witness :
  truncate long_transcript
  = firstn (N.to_nat max_chars) long_transcript ++ truncation_marker
  /\ N.of_nat (List.length (truncate long_transcript))
     = (max_chars + N.of_nat (List.length truncation_marker))%N.
Proof.
  apply (proj1 (transcript_truncated ascii_db offline long_transcript)).
  vm_compute. reflexivity.
Defined.

Lemma summary_error_key_not_configured (U : unicode_db) :
  summary_error U key_not_configured = ValueError key_not_configured.
Proof.
  unfold summary_error.
  assert (H : contains (py "OpenAI API key not configured") key_not_configured
              = true) by reflexivity.
  rewrite H. reflexivity.
Qed.

(** C9: a key that is missing, empty, or the placeholder
    "your_openai_api_key_here" makes [get_summary] raise the [ValueError]
    "OpenAI API key not configured. Please set OPENAI_API_KEY environment
    variable." without any request to the text-generation service. *)
Theorem placeholder_key_rejected (U : unicode_db) (w : world) (t : str) :
  getenv_api_key w = None
  \/ getenv_api_key w = Some []
  \/ getenv_api_key w = Some placeholder_key ->
  get_summary U w t = (Raise (ValueError key_not_configured), []).
Proof.
  intros H.
  assert (C : get_openai_client w = Raise (ValueError key_not_configured)).
  { unfold get_openai_client.
    destruct H as [H|[H|H]]; rewrite H; reflexivity. }
  unfold get_summary. rewrite C.
  unfold lift, bind, catch, raise, str_of.
  rewrite summary_error_key_not_configured. reflexivity.
Qed.

Lemma placeholder_key_rejected_witness :
  get_summary ascii_db placeholder_world long_transcript
  = (Raise (ValueError key_not_configured), []).
Proof.
  apply (placeholder_key_rejected ascii_db placeholder_world long_transcript).
  right. right. reflexivity.
Defined.

(** * Further properties *)

(** ** Backtracking *)

Section MoreRegexFacts.

Variable d : char -> bool.

(** What [star] takes is in the class. *)
Lemma star_cont_cls (k : cls) (cont : str -> option nat) (s : str) (n : nat) :
  star d k cont s = Some n ->
  exists a b m, s = a ++ b /\ Forall (fun c => in_cls d k c = true) a
                /\ cont b = Some m.
Proof.
  revert n; induction s as [|c r IH]; intros n H; simpl in H.
  - exists [], [], n. repeat split; [constructor | exact H].
  - destruct (in_cls d k c) eqn:Ec.
    + destruct (star d k cont r) as [n'|] eqn:E.
      * destruct (IH _ eq_refl) as (a & b & m & -> & Ha & Hb).
        exists (c :: a), b, m. repeat split; [|exact Hb].
        constructor; assumption.
      * exists [], (c :: r), n. repeat split; [constructor | exact H].
    + exists [], (c :: r), n. repeat split; [constructor | exact H].
Qed.

(** [star] finds a match whenever some split of the text gives one. *)
Lemma star_complete (k : cls) (cont : str -> option nat) (a b : str) :
  Forall (fun c => in_cls d k c = true) a ->
  cont b <> None ->
  star d k cont (a ++ b) <> None.
Proof.
  intros Ha Hb. induction Ha as [|c a Hc Ha IH]; cbn [app].
  - destruct b as [|c r]; [exact Hb|]. cbn [star].
    destruct (in_cls d k c); [|exact Hb].
    destruct (star d k cont r); [discriminate | exact Hb].
  - cbn [star]. rewrite Hc.
    destruct (star d k cont (a ++ b)); [discriminate | contradiction].
Qed.

(** A match of a pattern holds a match of each of its tails. *)
Lemma match_items_tail (p1 p2 : pattern) :
  forall s n, match_items d (p1 ++ p2) s = Some n ->
  exists a b m, s = a ++ b /\ match_items d p2 b = Some m.
Proof.
  induction p1 as [|it p1 IH]; intros s n H.
  - exists [], s, n. split; [reflexivity | exact H].
  - cbn [app] in H. destruct it as [k|k j|k].
    + cbn [match_items] in H.
      destruct (exactly_cont d _ _ _ _ _ H) as (a & b & m & -> & _ & _ & Hb).
      destruct (IH _ _ Hb) as (a' & b' & m' & -> & Hm).
      exists (a ++ a'), b', m'. split; [apply app_assoc | exact Hm].
    + cbn [match_items] in H.
      destruct (exactly_cont d _ _ _ _ _ H) as (a & b & m & -> & _ & _ & Hb).
      destruct (IH _ _ Hb) as (a' & b' & m' & -> & Hm).
      exists (a ++ a'), b', m'. split; [apply app_assoc | exact Hm].
    + cbn [match_items] in H. destruct s as [|c r]; [discriminate|].
      destruct (in_cls d k c); [|discriminate].
      destruct (star d k (match_items d (p1 ++ p2)) r) as [m|] eqn:E;
        [|discriminate].
      destruct (star_cont d _ _ _ _ E) as (a & b & m' & -> & Hb).
      destruct (IH _ _ Hb) as (a' & b' & m'' & -> & Hm).
      exists (c :: a ++ a'), b', m''. split; [|exact Hm].
      cbn [app]. now rewrite app_assoc.
Qed.

Lemma unmatched_nil (p : pattern) :
  match_items d p [] = None -> unmatched d p [].
Proof.
  intros H a b E. symmetry in E. apply app_eq_nil in E.
  destruct E as [_ ->]. exact H.
Qed.

Lemma unmatched_cons (p : pattern) (c : char) (t : str) :
  match_items d p (c :: t) = None -> unmatched d p t -> unmatched d p (c :: t).
Proof.
  intros Hc Ht a b H. destruct a as [|x a].
  - simpl in H. subst b. exact Hc.
  - injection H as _ H. exact (Ht _ _ H).
Qed.

Lemma unmatched_tail (p : pattern) (c : char) (t : str) :
  unmatched d p (c :: t) -> unmatched d p t.
Proof. intros H a b E. apply (H (c :: a) b). now rewrite E. Qed.

(** A text where the pattern matches nowhere is left as it is. *)
Lemma re_sub_unmatched (p : pattern) (repl : str) (t : str) :
  unmatched d p t -> re_sub d p repl t = t.
Proof.
  unfold re_sub. induction t as [|c t IH]; intros H; [reflexivity|].
  cbn [re_sub_aux]. rewrite (H [] (c :: t) eq_refl).
  f_equal. apply IH. exact (unmatched_tail p c t H).
Qed.

(** *** Sequence numbers *)

Lemma newline_next_cons (c : char) (r : str) :
  newline_next d (c :: r) = if N.eqb c nl then Some 1 else None.
Proof. unfold newline_next. cbn. destruct (N.eqb c nl); reflexivity. Qed.

Lemma sequence_match_cons (c : char) (r : str) :
  match_items d sequence_number_re (c :: r) =
  if d c then option_map S (star d Digit (newline_next d) r) else None.
Proof. reflexivity. Qed.

(** The pattern r'\d+\n' matches exactly where a digit is followed by
    digits and a newline. *)
Lemma sequence_match_iff (c : char) (r : str) :
  match_items d sequence_number_re (c :: r) <> None
  <-> d c = true /\ digits_then_newline d r.
Proof.
  rewrite sequence_match_cons. split.
  - destruct (d c); [|intros H; now contradiction H].
    destruct (star d Digit (newline_next d) r) as [n|] eqn:E;
      [|intros H; now contradiction H].
    intros _. split; [reflexivity|].
    destruct (star_cont_cls _ _ _ _ E) as (a & b & m & -> & Ha & Hb).
    destruct b as [|x b]; [discriminate|].
    rewrite newline_next_cons in Hb.
    destruct (N.eqb x nl) eqn:Ex; [|discriminate].
    apply N.eqb_eq in Ex. subst x. exists a, b. split; [reflexivity | exact Ha].
  - intros [Hc (a & b & -> & Ha)]. rewrite Hc.
    assert (H : star d Digit (newline_next d) (a ++ nl :: b) <> None).
    { apply star_complete; [exact Ha|].
      rewrite newline_next_cons, N.eqb_refl. discriminate. }
    destruct (star d Digit (newline_next d) (a ++ nl :: b));
      [discriminate | contradiction].
Qed.

(** Digits before a newline in what the first substitution yields were
    digits before a newline in the text. *)
Lemma digits_then_newline_scanned (r : str) :
  digits_then_newline d (re_sub_aux d sequence_number_re [] 0 r) ->
  digits_then_newline d r.
Proof.
  induction r as [|x r IH]; intros H.
  - destruct H as (a & b & E & _). destruct a; discriminate.
  - cbn [re_sub_aux] in H.
    destruct (match_items d sequence_number_re (x :: r)) as [[|n]|] eqn:M.
    + exfalso. revert M. apply match_not_empty. reflexivity.
    + assert (M' : match_items d sequence_number_re (x :: r) <> None)
        by (rewrite M; discriminate).
      apply sequence_match_iff in M'. destruct M' as [Hx (a & b & -> & Ha)].
      exists (x :: a), b. split; [reflexivity | constructor; assumption].
    + destruct H as (a & b & E & Ha). destruct a as [|y a].
      * injection E as -> E. exists [], r. split; [reflexivity | constructor].
      * injection E as <- E. inversion Ha as [|? ? Hx Ha']; subst.
        destruct (IH (ex_intro _ a (ex_intro _ b (conj E Ha'))))
          as (a' & b' & -> & Ha'').
        exists (x :: a'), b'. split; [reflexivity | constructor; assumption].
Qed.

(** What [re.sub(r'\d+\n', '', text)] yields has no digit left in front of
    a newline. *)
Lemma sequence_numbers_gone (s : str) :
  forall k, unmatched d sequence_number_re (re_sub_aux d sequence_number_re [] k s).
Proof.
  induction s as [|c r IH]; intros k; [apply unmatched_nil; reflexivity|].
  destruct k as [|k]; [|exact (IH k)].
  cbn [re_sub_aux].
  destruct (match_items d sequence_number_re (c :: r)) as [[|n]|] eqn:M.
  - exfalso. revert M. apply match_not_empty. reflexivity.
  - exact (IH n).
  - apply unmatched_cons; [|exact (IH 0)].
    destruct (match_items d sequence_number_re
                (c :: re_sub_aux d sequence_number_re [] 0 r)) as [n|] eqn:M';
      [|reflexivity].
    exfalso.
    assert (N' : match_items d sequence_number_re
                   (c :: re_sub_aux d sequence_number_re [] 0 r) <> None)
      by (rewrite M'; discriminate).
    apply sequence_match_iff in N'. destruct N' as [Hc Hd].
    apply digits_then_newline_scanned in Hd.
    assert (N'' : match_items d sequence_number_re (c :: r) <> None)
      by (apply sequence_match_iff; split; assumption).
    contradiction.
Qed.

(** *** Timestamps *)

(** A timestamp line ends as a sequence number does. *)
Lemma timestamp_ends_in_sequence_number (s : str) (n : nat) :
  match_items d timestamp_re s = Some n ->
  exists a b, s = a ++ b /\ match_items d sequence_number_re b <> None.
Proof.
  intros H.
  change timestamp_re
    with (removelast (removelast timestamp_re) ++ [Rep Digit 3; One (Lit nl)])
    in H.
  destruct (match_items_tail _ _ _ _ H) as (a & b & m & -> & Hm).
  exists a, b. split; [reflexivity|].
  cbn [match_items] in Hm.
  destruct (exactly_cont d _ _ _ _ _ Hm) as (x & y & m' & -> & Hx & Hl & Hy).
  destruct x as [|x1 x]; [discriminate|]. cbn [app].
  apply sequence_match_iff. inversion Hx as [|? ? H1 Hx']; subst. split.
  - exact H1.
  - destruct y as [|z y]; [discriminate|].
    cbn [exactly in_cls] in Hy. destruct (N.eqb z nl) eqn:Ez; [|discriminate].
    apply N.eqb_eq in Ez. subst z. exists x, y. split; [reflexivity|].
    exact Hx'.
Qed.

Lemma sequence_unmatched_timestamp_unmatched (t : str) :
  unmatched d sequence_number_re t -> unmatched d timestamp_re t.
Proof.
  intros H a b E.
  destruct (match_items d timestamp_re b) as [n|] eqn:M; [|reflexivity].
  exfalso.
  destruct (timestamp_ends_in_sequence_number b n M) as (a' & b' & -> & N').
  apply N'. apply (H (a ++ a') b'). rewrite E. apply app_assoc.
Qed.

End MoreRegexFacts.

(** ** The normalizer, again *)

Section MoreNormalizerFacts.

Variable d : char -> bool.
Variable sp : char -> bool.

(** A substitution by at most one character does not lengthen the text. *)
Lemma re_sub_aux_length (p : pattern) (repl : str) :
  List.length repl <= 1 ->
  forall s k, List.length (re_sub_aux d p repl k s) <= List.length s.
Proof.
  intros Hr. induction s as [|c r IH]; intros k; [simpl; lia|].
  cbn [re_sub_aux]. destruct k as [|k].
  - destruct (match_items d p (c :: r)) as [[|n]|].
    + cbn [List.length]. specialize (IH 0). lia.
    + rewrite length_app. cbn [List.length]. specialize (IH n). lia.
    + cbn [List.length]. specialize (IH 0). lia.
  - cbn [List.length]. specialize (IH k). lia.
Qed.

Lemma re_sub_length (p : pattern) (repl : str) (s : str) :
  List.length repl <= 1 ->
  List.length (re_sub d p repl s) <= List.length s.
Proof. intros H. apply re_sub_aux_length. exact H. Qed.

Lemma strip_length (s : str) : List.length (strip sp s) <= List.length s.
Proof.
  destruct (strip_split sp s) as (a & b & E).
  rewrite E at 2. rewrite !length_app. lia.
Qed.

(** The first [gt_sign] of a text that has one. *)
Lemma first_closing (m rest : str) :
  exists run rest',
    m ++ gt_sign :: rest = run ++ gt_sign :: rest' /\ ~ In gt_sign run.
Proof.
  induction m as [|c m IH].
  - exists [], rest. split; [reflexivity | intros []].
  - destruct (N.eq_dec c gt_sign) as [->|Hc].
    + exists [], (m ++ gt_sign :: rest). split; [reflexivity | intros []].
    + destruct IH as (run & rest' & E & Hn).
      exists (c :: run), rest'. split.
      * cbn [app]. now rewrite E.
      * intros [H|H]; [congruence | contradiction].
Qed.

Lemma no_lt_no_tag (t : str) : ~ In lt_sign t -> no_tag d t.
Proof.
  intros Hn a b E.
  destruct (match_items d tag_re b) as [n|] eqn:M; [|reflexivity].
  apply tag_match_iff in M. destruct M as (x & run & rest & -> & _).
  exfalso. apply Hn. rewrite E. apply in_or_app. right. now left.
Qed.

End MoreNormalizerFacts.

(** X1: the second substitution of [clean_transcript], that of the timestamp
    lines, never changes the text: what the first substitution yields has no
    digit in front of a newline left, and a timestamp line ends in three
    digits and a newline.  The normalizer is the composition of the other
    steps. *)
Theorem timestamp_substitution_idle (d sp : char -> bool) (text : str) :
  re_sub d timestamp_re [] (re_sub d sequence_number_re [] text)
  = re_sub d sequence_number_re [] text
  /\ clean_transcript d sp text
     = strip sp
         (re_sub d tag_re []
            (re_sub d newlines_re [space]
               (re_sub d sequence_number_re [] text))).
Proof.
  assert (H : re_sub d timestamp_re [] (re_sub d sequence_number_re [] text)
              = re_sub d sequence_number_re [] text).
  { apply re_sub_unmatched, sequence_unmatched_timestamp_unmatched.
    apply sequence_numbers_gone. }
  split; [exact H|]. unfold clean_transcript. rewrite H. reflexivity.
Qed.

(** X2: [clean_transcript] never lengthens a text. *)
Theorem clean_transcript_length (d sp : char -> bool) (text : str) :
  List.length (clean_transcript d sp text) <= List.length text.
Proof.
  unfold clean_transcript.
  eapply Nat.le_trans; [apply strip_length|].
  eapply Nat.le_trans; [apply re_sub_length; simpl; lia|].
  eapply Nat.le_trans; [apply re_sub_length; simpl; lia|].
  eapply Nat.le_trans; [apply re_sub_length; simpl; lia|].
  apply re_sub_length; simpl; lia.
Qed.

(** X3: every character of the text that [clean_transcript] returns is a
    character of its argument, or the space put for a run of newlines. *)
Theorem clean_transcript_characters (d sp : char -> bool) (text : str)
  (c : char) :
  In c (clean_transcript d sp text) -> In c text \/ c = space.
Proof.
  unfold clean_transcript. intros H.
  apply strip_In, re_sub_delete_In in H.
  apply re_sub_aux_In in H. destruct H as [[H|[]]|H].
  - right. symmetry. exact H.
  - left. apply re_sub_delete_In, re_sub_delete_In in H. exact H.
Qed.

Lemma clean_transcript_characters_witness :
  In space plain_srt \/ space = space.
Proof.
  apply (clean_transcript_characters ascii_decimal ascii_space plain_srt space).
  vm_compute. repeat (first [left; reflexivity | right]).
Defined.

(** X4: in the text that [clean_transcript] returns, no [<] is followed by a
    character other than [>] and, further on, by a [>]. *)
Theorem clean_transcript_no_markup (d sp : char -> bool) (text : str)
  (a m rest : str) (x : char) :
  x <> gt_sign ->
  clean_transcript d sp text <> a ++ lt_sign :: x :: m ++ gt_sign :: rest.
Proof.
  intros Hx E.
  destruct (first_closing m rest) as (run & rest' & Er & Hn).
  rewrite Er in E.
  assert (M : match_items d tag_re (lt_sign :: x :: run ++ gt_sign :: rest')
              = Some (3 + List.length run)).
  { apply tag_match_iff. exists x, run, rest'. repeat split; assumption. }
  rewrite (clean_no_tag d sp text a _ E) in M. discriminate.
Qed.

Lemma clean_transcript_no_markup_witness :
  clean_transcript ascii_decimal ascii_space plain_srt
  <> py "Welcome to the channel " ++ lt_sign :: 105%N :: [] ++ gt_sign
     :: py "today we bake bread".
Proof.
  apply (clean_transcript_no_markup ascii_decimal ascii_space plain_srt
           (py "Welcome to the channel ") [] (py "today we bake bread") 105%N).
  discriminate.
Defined.

(** X5: a text without newline and without [<], with no white space at
    either end, is returned as it is. *)
Theorem clean_transcript_plain_text (d sp : char -> bool) (text : str) :
  ~ In nl text -> ~ In lt_sign text -> strip sp text = text ->
  clean_transcript d sp text = text.
Proof.
  intros Hn Hl Hs. apply clean_fixed.
  - exact Hn.
  - apply no_lt_no_tag. exact Hl.
  - rewrite <- Hs. apply strip_leading.
  - rewrite <- Hs. apply strip_trailing.
Qed.

Lemma clean_transcript_plain_text_witness :
  clean_transcript ascii_decimal ascii_space (py "3 > 2, said the teacher")
  = py "3 > 2, said the teacher".
Proof.
  apply (clean_transcript_plain_text ascii_decimal ascii_space
           (py "3 > 2, said the teacher")).
  - vm_compute. intros H. repeat (destruct H as [H|H]; [discriminate|]).
    exact H.
  - vm_compute. intros H. repeat (destruct H as [H|H]; [discriminate|]).
    exact H.
  - reflexivity.
Defined.

(** ** Traces *)

Lemma bind_fst {A B} (m : M A) (f : A -> M B) :
  fst (bind m f) = match fst m with
                   | Ok a => fst (f a)
                   | Raise e => Raise e
                   end.
Proof. destruct m as [[a|e] l]; simpl; [destruct (f a)|]; reflexivity. Qed.

Lemma bind_snd {A B} (m : M A) (f : A -> M B) :
  snd (bind m f) = match fst m with
                   | Ok a => snd m ++ snd (f a)
                   | Raise _ => snd m
                   end.
Proof. destruct m as [[a|e] l]; simpl; [destruct (f a)|]; reflexivity. Qed.

Lemma catch_fst {A} (m : M A) (h : exn -> M A) :
  fst (catch m h) = match fst m with
                    | Ok a => Ok a
                    | Raise e => fst (h e)
                    end.
Proof. destruct m as [[a|e] l]; simpl; [|destruct (h e)]; reflexivity. Qed.

Lemma catch_snd {A} (m : M A) (h : exn -> M A) :
  snd (catch m h) = match fst m with
                    | Ok _ => snd m
                    | Raise e => snd m ++ snd (h e)
                    end.
Proof. destruct m as [[a|e] l]; simpl; [|destruct (h e)]; reflexivity. Qed.

Lemma after_call {A} (ev : event) (m : M A) :
  (let (r, l') := m in (r, ev :: l')) = (fst m, ev :: snd m).
Proof. destruct m; reflexivity. Qed.

(** ** Direct access, again *)

Section DirectAccessFacts.

Variable w : world.

(** One turn of the loop over the preferred languages. *)
Lemma langs_loop_cons (captions : caption_map) (lang : str) (rest : list str)
  (text : option str) :
  langs_loop w captions (lang :: rest) text =
  match lookup lang captions with
  | None => langs_loop w captions rest text
  | Some [] => langs_loop w captions rest text
  | Some tracks =>
      match first_usable tracks with
      | None =>
          if truthy text then ret text else langs_loop w captions rest text
      | Some u =>
          match urlopen w u with
          | Ok (c :: body) => (Ok (Some (c :: body)), [Fetch u])
          | Ok [] =>
              (fst (langs_loop w captions rest (Some [])),
               Fetch u :: snd (langs_loop w captions rest (Some [])))
          | Raise _ =>
              (fst (langs_loop w captions rest text),
               Fetch u :: snd (langs_loop w captions rest text))
          end
      end
  end.
Proof.
  cbn [langs_loop].
  destruct (lookup lang captions) as [[|sub tracks]|]; try reflexivity.
  rewrite tracks_loop_first_usable.
  destruct (first_usable (sub :: tracks)) as [u|].
  - unfold call, bind, catch, ret.
    destruct (urlopen w u) as [[|c body]|e]; cbn [truthy app].
    + exact (after_call _ _).
    + reflexivity.
    + exact (after_call _ _).
  - unfold bind, catch, ret. cbn [app].
    destruct (truthy text); [reflexivity|].
    destruct (langs_loop w captions rest text); reflexivity.
Qed.

(** The loop does not raise: a fetch that fails is passed over. *)
Lemma langs_loop_returns (captions : caption_map) (langs : list str) :
  forall text, exists r, fst (langs_loop w captions langs text) = Ok r.
Proof.
  induction langs as [|lang rest IH]; intros text.
  - exists text. reflexivity.
  - rewrite langs_loop_cons.
    destruct (lookup lang captions) as [[|sub tracks]|]; try apply IH.
    destruct (first_usable (sub :: tracks)) as [u|].
    + destruct (urlopen w u) as [[|c body]|e]; cbn [fst].
      * apply IH.
      * eexists; reflexivity.
      * apply IH.
    + destruct (truthy text); [eexists; reflexivity | apply IH].
Qed.

(** At most one fetch for each language, and nothing but fetches. *)
Lemma langs_loop_trace (captions : caption_map) (langs : list str) :
  forall text,
    Forall (fun ev => is_fetch ev = true)
      (snd (langs_loop w captions langs text))
    /\ List.length (snd (langs_loop w captions langs text))
       <= List.length langs.
Proof.
  induction langs as [|lang rest IH]; intros text.
  - split; [constructor | simpl; lia].
  - rewrite langs_loop_cons. cbn [List.length].
    destruct (lookup lang captions) as [[|sub tracks]|];
      try (destruct (IH text); split; [assumption | lia]).
    destruct (first_usable (sub :: tracks)) as [u|].
    + destruct (urlopen w u) as [[|c body]|e]; cbn [snd List.length].
      * destruct (IH (Some [])). split; [constructor; auto | lia].
      * split; [repeat constructor | lia].
      * destruct (IH text). split; [constructor; auto | lia].
    + destruct (truthy text).
      * split; [constructor | simpl; lia].
      * destruct (IH text); split; [assumption | lia].
Qed.

(** What is fetched is the first usable entry of a language of the list. *)
Lemma langs_loop_fetches (captions : caption_map) (langs : list str)
  (u : str) :
  forall text,
    In (Fetch u) (snd (langs_loop w captions langs text)) ->
    exists lang tracks,
      In lang langs /\ lookup lang captions = Some tracks
      /\ first_usable tracks = Some u.
Proof.
  induction langs as [|lang rest IH]; intros text H.
  - destruct H.
  - assert (K : forall text',
               In (Fetch u) (snd (langs_loop w captions rest text')) ->
               exists lang' tracks,
                 In lang' (lang :: rest) /\ lookup lang' captions = Some tracks
                 /\ first_usable tracks = Some u).
    { intros text' H'. destruct (IH _ H') as (l' & t' & Hi & Hl & Hf).
      exists l', t'. repeat split; [now right | assumption | assumption]. }
    rewrite langs_loop_cons in H.
    destruct (lookup lang captions) as [[|sub tracks]|] eqn:L;
      try (exact (K _ H)).
    destruct (first_usable (sub :: tracks)) as [u'|] eqn:F.
    + assert (Here : Fetch u' = Fetch u ->
                     exists lang' tracks0,
                       In lang' (lang :: rest)
                       /\ lookup lang' captions = Some tracks0
                       /\ first_usable tracks0 = Some u).
      { intros E. injection E as ->. exists lang, (sub :: tracks).
        repeat split; [now left | assumption | assumption]. }
      destruct (urlopen w u') as [[|c body]|e]; cbn [snd] in H;
        destruct H as [H|H]; try (exact (Here H)); try (exact (K _ H)).
      destruct H.
    + destruct (truthy text); [destruct H | exact (K _ H)].
Qed.

Lemma direct_access_returns (subs autos : caption_map) (text : option str) :
  exists r, fst (direct_access w subs autos text) = Ok r.
Proof.
  unfold direct_access. destruct (truthy text); [eexists; reflexivity|].
  rewrite bind_fst.
  destruct (langs_loop_returns subs manual_langs text) as (r & ->).
  destruct (truthy r); [eexists; reflexivity|].
  apply langs_loop_returns.
Qed.

Lemma direct_access_trace (subs autos : caption_map) (text : option str) :
  Forall (fun ev => is_fetch ev = true)
    (snd (direct_access w subs autos text))
  /\ List.length (snd (direct_access w subs autos text)) <= 7.
Proof.
  unfold direct_access. destruct (truthy text).
  - split; [constructor | simpl; lia].
  - rewrite bind_snd.
    destruct (langs_loop_trace subs manual_langs text) as [F1 L1].
    cbn [manual_langs List.length] in L1.
    destruct (fst (langs_loop w subs manual_langs text)) as [r|e].
    + destruct (truthy r).
      * cbn [snd ret]. rewrite app_nil_r. split; [assumption | lia].
      * destruct (langs_loop_trace autos automatic_langs r) as [F2 L2].
        cbn [automatic_langs List.length] in L2.
        split; [apply Forall_app; split; assumption|].
        rewrite length_app. lia.
    + split; [assumption | lia].
Qed.

End DirectAccessFacts.

(** ** The download, again *)

Lemma primary_path_trace (w : world) (video : str) :
  (exists e, primary_path w video = (Raise e, []))
  \/ (exists r, primary_path w video = (r, [Download video])).
Proof.
  unfold primary_path, lift, call, bind, catch, ret.
  destruct (new_tempdir w) as [[]|e]; [|left; eexists; reflexivity].
  right.
  destruct (download_subtitles w video) as [files|e]; cbn [app].
  - destruct (find (fun f => endswith (py ".srt") (fst f)) files)
      as [[name [t|e]]|]; destruct (cleanup_tempdir w) as [[]|e'];
      eexists; reflexivity.
  - destruct (cleanup_tempdir w) as [[]|e']; eexists; reflexivity.
Qed.

(** With a temporary directory, the download fails in silence. *)
Lemma primary_path_returns (w : world) (video : str) :
  new_tempdir w = Ok tt -> cleanup_tempdir w = Ok tt ->
  exists r, primary_path w video = (Ok r, [Download video]).
Proof.
  intros Ht Hc.
  unfold primary_path, lift, call, bind, catch, ret. rewrite Ht, Hc.
  destruct (download_subtitles w video) as [files|e]; cbn [app].
  - destruct (find (fun f => endswith (py ".srt") (fst f)) files)
      as [[name [t|e]]|]; eexists; reflexivity.
  - eexists; reflexivity.
Qed.

Lemma find_payload_trace (w : world) (video : str) (subs autos : caption_map) :
  snd (find_payload w video subs autos) = []
  \/ exists fetches,
       snd (find_payload w video subs autos) = Download video :: fetches
       /\ Forall (fun ev => is_fetch ev = true) fetches
       /\ List.length fetches <= 7.
Proof.
  unfold find_payload. rewrite bind_snd.
  destruct (primary_path_trace w video) as [[e E]|[r E]]; rewrite E;
    cbn [fst snd]; [left; reflexivity|].
  right. destruct r as [text|e].
  - exists (snd (direct_access w subs autos text)).
    split; [reflexivity | apply direct_access_trace].
  - exists []. split; [reflexivity | split; [constructor | simpl; lia]].
Qed.

(** X6: when the download leaves a file whose name ends in .srt and whose
    content is not empty, that content is the payload and the caption maps
    of the metadata are not consulted: no locator is fetched, whatever the
    maps hold. *)
Theorem downloaded_file_preferred (w : world) (video : str)
  (subs autos : caption_map) (files : list (str * result str))
  (name : str) (c : char) (t : str) :
  new_tempdir w = Ok tt ->
  download_subtitles w video = Ok files ->
  find (fun f => endswith (py ".srt") (fst f)) files = Some (name, Ok (c :: t)) ->
  cleanup_tempdir w = Ok tt ->
  find_payload w video subs autos = (Ok (Some (c :: t)), [Download video]).
Proof.
  intros Ht Hd Hf Hc.
  unfold find_payload, primary_path, lift, call, bind, catch, ret.
  rewrite Ht, Hd, Hf, Hc. reflexivity.
Qed.

Lemma downloaded_file_preferred_witness :
  find_payload download_world some_video us_gb_subtitles en_automatic
  = (Ok (Some plain_srt), [Download some_video]).
Proof.
  apply (downloaded_file_preferred download_world some_video us_gb_subtitles
           en_automatic
           [(py "Clip.en.vtt", Ok (py "WEBVTT")); (py "Clip.en.srt", Ok plain_srt)]
           (py "Clip.en.srt"));
    reflexivity.
Defined.

(** X7: once the metadata have arrived with their two caption maps and the
    temporary directory can be made and removed, [get_transcript] fails in
    two ways only: with the message of the missing captions, or with that of
    the transcript too short.  A download or a fetch that fails (no network,
    an HTTP error, bytes that are not UTF-8) is never reported as such. *)
Theorem subtitle_failures_reported_as_no_captions (U : unicode_db) (w : world)
  (video : str) (info : video_info) (subs autos : caption_map) :
  new_ydl w = Ok tt ->
  extract_info w video = Ok info ->
  subtitles info = Some subs ->
  automatic_captions info = Some autos ->
  new_tempdir w = Ok tt ->
  cleanup_tempdir w = Ok tt ->
  match fst (get_transcript U w video) with
  | Ok _ => True
  | Raise e =>
      e = ValueError (no_captions_message subs autos)
      \/ e = ValueError too_short_message
  end.
Proof.
  intros Hy He Hs Ha Ht Hc.
  unfold get_transcript. rewrite catch_fst.
  rewrite (get_transcript_body_info U w video info Hy He).
  rewrite bind_fst. cbn [call fst]. rewrite bind_fst.
  unfold acquire. rewrite Hs, Ha.
  repeat (rewrite bind_fst; cbn [ret fst]).
  unfold find_payload. rewrite bind_fst.
  destruct (primary_path_returns w video Ht Hc) as (r & ->). cbn [fst].
  destruct (direct_access_returns w subs autos r) as (text & ->).
  destruct text as [[|c t]|]; cbn [fst raise ret]; auto.
  unfold finish.
  destruct (clean_transcript (is_decimal U) (is_space U) (c :: t)) as [|x r'];
    cbn [fst raise]; auto.
  destruct (List.length (strip (is_space U) (x :: r')) <? 10);
    cbn [fst raise ret]; auto.
Qed.

Lemma subtitle_failures_reported_as_no_captions_witness :
  match fst (get_transcript ascii_db unreachable_captions_world some_video) with
  | Ok _ => True
  | Raise e =>
      e = ValueError (no_captions_message us_gb_subtitles en_automatic)
      \/ e = ValueError too_short_message
  end.
Proof.
  apply (subtitle_failures_reported_as_no_captions ascii_db
           unreachable_captions_world some_video english_info);
    reflexivity.
Defined.

(** X8: the calls that [get_transcript] makes outside the process: none,
    or the query of the metadata alone, or that query, one download, and
    then at most seven fetches of a locator.  It makes no other call. *)
Theorem get_transcript_calls (U : unicode_db) (w : world) (video : str) :
  snd (get_transcript U w video) = []
  \/ snd (get_transcript U w video) = [ExtractInfo video]
  \/ exists fetches,
       snd (get_transcript U w video)
       = ExtractInfo video :: Download video :: fetches
       /\ Forall (fun ev => is_fetch ev = true) fetches
       /\ List.length fetches <= 7.
Proof.
  assert (B : snd (get_transcript U w video)
              = snd (get_transcript_body U w video)).
  { unfold get_transcript. rewrite catch_snd.
    destruct (fst (get_transcript_body U w video)) as [t|[m|m]];
      [reflexivity | apply app_nil_r | apply app_nil_r]. }
  rewrite B. clear B. unfold get_transcript_body.
  rewrite bind_snd. cbn [lift fst snd].
  destruct (new_ydl w) as [[]|e]; [|left; reflexivity].
  cbn [app]. rewrite bind_snd, catch_fst, catch_snd. cbn [call fst snd].
  destruct (extract_info w video) as [info|e];
    [|right; left; reflexivity].
  assert (F : forall p, snd (finish U p) = []).
  { intros p. unfold finish.
    destruct (clean_transcript (is_decimal U) (is_space U) p) as [|x r];
      [reflexivity|].
    destruct (List.length (strip (is_space U) (x :: r)) <? 10); reflexivity. }
  rewrite bind_snd. cbn [app].
  assert (A : snd (acquire w video info) = []
              \/ exists fetches,
                   snd (acquire w video info) = Download video :: fetches
                   /\ Forall (fun ev => is_fetch ev = true) fetches
                   /\ List.length fetches <= 7).
  { unfold acquire.
    destruct (subtitles info) as [subs|]; [|left; reflexivity].
    destruct (automatic_captions info) as [autos|]; [|left; reflexivity].
    repeat (rewrite bind_snd; cbn [ret fst snd app]).
    assert (E : forall text : option str,
               snd (match text with
                    | Some (c :: t) => ret (c :: t)
                    | _ => raise (ValueError (no_captions_message subs autos))
                    end) = []).
    { intros [[|c t]|]; reflexivity. }
    destruct (fst (find_payload w video subs autos)) as [text|e];
      [rewrite E, app_nil_r|]; apply find_payload_trace. }
  destruct (fst (acquire w video info)) as [p|e]; [rewrite F, app_nil_r|];
    (destruct A as [->|(fetches & -> & H)];
     [right; left; reflexivity | right; right; exists fetches; split; [reflexivity | exact H]]).
Qed.

(** X9: a locator that the direct access fetches is the first usable entry
    (format srt or vtt, locator not empty) that a caption map of the
    metadata holds under one of the preferred languages: the manual
    subtitles under en, en-US, en-GB or en-CA, the automatic captions under
    en, en-US or en-GB. *)
Theorem fetched_locators_from_metadata (w : world) (subs autos : caption_map)
  (text : option str) (u : str) :
  In (Fetch u) (snd (direct_access w subs autos text)) ->
  exists lang tracks,
    first_usable tracks = Some u
    /\ ((In lang manual_langs /\ lookup lang subs = Some tracks)
        \/ (In lang automatic_langs /\ lookup lang autos = Some tracks)).
Proof.
  unfold direct_access. destruct (truthy text); [intros []|].
  rewrite bind_snd. intros H.
  assert (M : In (Fetch u) (snd (langs_loop w subs manual_langs text)) ->
              exists lang tracks,
                first_usable tracks = Some u
                /\ ((In lang manual_langs /\ lookup lang subs = Some tracks)
                    \/ (In lang automatic_langs
                        /\ lookup lang autos = Some tracks))).
  { intros H'.
    destruct (langs_loop_fetches w subs manual_langs u text H')
      as (lang & tracks & Hi & Hl & Hf).
    exists lang, tracks. split; [exact Hf | left; split; assumption]. }
  destruct (fst (langs_loop w subs manual_langs text)) as [r|e];
    [|exact (M H)].
  apply in_app_or in H. destruct H as [H|H]; [exact (M H)|].
  destruct (truthy r); [destruct H|].
  destruct (langs_loop_fetches w autos automatic_langs u r H)
    as (lang & tracks & Hi & Hl & Hf).
  exists lang, tracks. split; [exact Hf | right; split; assumption].
Qed.

Lemma fetched_locators_from_metadata_witness :
  exists lang tracks,
    first_usable tracks = Some us_url
    /\ ((In lang manual_langs /\ lookup lang us_gb_subtitles = Some tracks)
        \/ (In lang automatic_langs /\ lookup lang en_automatic = Some tracks)).
Proof.
  apply (fetched_locators_from_metadata captions_world us_gb_subtitles
           en_automatic None us_url).
  vm_compute. left. reflexivity.
Defined.

(** X10: when the query of the metadata fails, whatever the class of the
    exception, [get_transcript] raises a [ValueError] whose message is the
    one that the classification of lines 53-67 gives for the text of the
    exception; no download and no fetch is attempted. *)
Theorem metadata_failure_classified (U : unicode_db) (w : world) (video : str)
  (e : exn) :
  new_ydl w = Ok tt ->
  extract_info w video = Raise e ->
  get_transcript U w video
  = (Raise (ValueError (info_error_message U (str_of e))), [ExtractInfo video]).
Proof.
  intros Hy He. unfold get_transcript, get_transcript_body.
  rewrite Hy, He. reflexivity.
Qed.

Lemma metadata_failure_classified_witness :
  get_transcript ascii_db offline some_video
  = (Raise (ValueError (py "Could not access video: Network is unreachable")),
     [ExtractInfo some_video]).
Proof.
  apply (metadata_failure_classified ascii_db offline some_video no_network);
    reflexivity.
Defined.

(** ** The summary generator, again *)

(** The handler of [get_summary] raises a [ValueError] in each of its
    branches. *)
Lemma summary_error_ValueError (U : unicode_db) (e : str) :
  exists m, summary_error U e = ValueError m.
Proof.
  unfold summary_error.
  destruct (contains (py "OpenAI API key not configured") e);
    [eexists; reflexivity|].
  destruct (contains (py "insufficient_quota") e
            || contains (py "quota") (lower U e)); [eexists; reflexivity|].
  destruct (contains (py "invalid_api_key") e
            || contains (py "authentication") (lower U e));
    eexists; reflexivity.
Qed.

Lemma get_openai_client_Raise (w : world) (e : exn) :
  get_openai_client w = Raise e -> e = ValueError key_not_configured.
Proof.
  unfold get_openai_client.
  destruct (getenv_api_key w) as [[|c k]|]; try (intros H; congruence).
  destruct (str_eqb (c :: k) placeholder_key); intros H; congruence.
Qed.

(** [get_summary], case by case. *)
Lemma get_summary_cases (U : unicode_db) (w : world) (t : str) :
  get_summary U w t =
  match get_openai_client w with
  | Raise e => (Raise (summary_error U (str_of e)), [])
  | Ok _ =>
      match chat_completion w (summary_request (truncate t)) with
      | Ok s => (Ok s, [ChatCompletion (summary_request (truncate t))])
      | Raise e => (Raise (summary_error U (str_of e)),
                    [ChatCompletion (summary_request (truncate t))])
      end
  end.
Proof.
  unfold get_summary, lift, call, bind, catch, raise.
  destruct (get_openai_client w) as [key|e]; [|reflexivity].
  destruct (chat_completion w (summary_request (truncate t))); reflexivity.
Qed.

Lemma truncate_truncate (t : str) : truncate (truncate t) = truncate t.
Proof.
  destruct (N.lt_ge_cases max_chars (N.of_nat (List.length t))) as [H|H].
  - rewrite (truncate_long (truncate t)).
    + rewrite (truncate_long t H). f_equal.
      rewrite firstn_app, firstn_firstn, Nat.min_id.
      replace (N.to_nat max_chars
               - List.length (firstn (N.to_nat max_chars) t)) with 0.
      * apply app_nil_r.
      * rewrite length_firstn. lia.
    + rewrite (truncate_long_length t H), truncation_marker_length. lia.
  - rewrite (truncate_short t H). apply truncate_short. exact H.
Qed.

(** X11: [get_summary] returns the answer of the one request it made, or
    raises a [ValueError]; it raises no other exception, and it makes at
    most one call, the request for the truncated transcript. *)
Theorem get_summary_outcomes (U : unicode_db) (w : world) (t : str) :
  match get_summary U w t with
  | (Ok s, l) =>
      chat_completion w (summary_request (truncate t)) = Ok s
      /\ l = [ChatCompletion (summary_request (truncate t))]
  | (Raise (ValueError _), l) =>
      l = [] \/ l = [ChatCompletion (summary_request (truncate t))]
  | (Raise (OtherError _), _) => False
  end.
Proof.
  rewrite get_summary_cases.
  destruct (get_openai_client w) as [key|e].
  - destruct (chat_completion w (summary_request (truncate t))) as [s|e].
    + split; reflexivity.
    + destruct (summary_error_ValueError U (str_of e)) as (m & ->).
      right. reflexivity.
  - destruct (summary_error_ValueError U (str_of e)) as (m & ->).
    left. reflexivity.
Qed.

(** X12: a transcript that was cut once is not cut again: [get_summary] on
    the text it would submit for [t] behaves as on [t] itself, and no second
    marker is appended. *)
Theorem get_summary_truncated_again (U : unicode_db) (w : world) (t : str) :
  truncate (truncate t) = truncate t
  /\ get_summary U w (truncate t) = get_summary U w t.
Proof.
  split; [apply truncate_truncate|].
  rewrite !get_summary_cases, truncate_truncate. reflexivity.
Qed.

(** X13: of a transcript of more than 8000 characters, only the first 8000
    reach the text-generation service: two such transcripts that agree on
    their first 8000 characters give the same request, and so the same
    outcome. *)
Theorem summary_ignores_the_rest (U : unicode_db) (w : world) (t1 t2 : str) :
  (max_chars < N.of_nat (List.length t1))%N ->
  (max_chars < N.of_nat (List.length t2))%N ->
  firstn (N.to_nat max_chars) t1 = firstn (N.to_nat max_chars) t2 ->
  summary_request (truncate t1) = summary_request (truncate t2)
  /\ get_summary U w t1 = get_summary U w t2.
Proof.
  intros H1 H2 E.
  assert (T : truncate t1 = truncate t2).
  { rewrite (truncate_long t1 H1), (truncate_long t2 H2), E. reflexivity. }
  rewrite !get_summary_cases, T. split; reflexivity.
Qed.

Lemma summary_ignores_the_rest_witness :
  summary_request (truncate long_transcript)
  = summary_request (truncate longer_transcript)
  /\ get_summary ascii_db answering_world long_transcript
     = get_summary ascii_db answering_world longer_transcript.
Proof.
  apply (summary_ignores_the_rest ascii_db answering_world long_transcript
           longer_transcript); vm_compute; reflexivity.
Defined.

(** ** The agent and the request handler *)

(** No exception but a [ValueError] leaves [get_transcript]. *)
Lemma get_transcript_Raise (U : unicode_db) (w : world) (video : str)
  (e : exn) (l : list event) :
  get_transcript U w video = (Raise e, l) -> exists m, e = ValueError m.
Proof.
  unfold get_transcript, catch, raise.
  destruct (get_transcript_body U w video) as [[t|[m|m]] l'];
    intros H; [discriminate | |]; injection H as <- _; eexists; reflexivity.
Qed.

(** The body of [process_video], case by case. *)
Lemma process_video_body_cases (U : unicode_db) (w : world) (video : str) :
  process_video_body U w video =
  match get_transcript U w video with
  | (Raise e, l) => (Raise e, l)
  | (Ok transcript, l) =>
      match get_summary U w transcript with
      | (Ok summary, l') => (Ok (transcript, summary), l ++ l')
      | (Raise e, l') => (Raise e, l ++ l')
      end
  end.
Proof.
  unfold process_video_body, bind, ret.
  destruct (get_transcript U w video) as [[t|e] l]; [|reflexivity].
  destruct (get_summary U w t) as [[s|e] l'];
    rewrite ?app_nil_r; reflexivity.
Qed.

(** No exception but a [ValueError] leaves the body of [process_video]. *)
Lemma process_video_body_Raise (U : unicode_db) (w : world) (video : str)
  (e : exn) (l : list event) :
  process_video_body U w video = (Raise e, l) -> exists m, e = ValueError m.
Proof.
  rewrite process_video_body_cases.
  destruct (get_transcript U w video) as [[t|e'] l1] eqn:E.
  - rewrite get_summary_cases.
    destruct (get_openai_client w) as [key|e''].
    + destruct (chat_completion w (summary_request (truncate t))) as [s|e''];
        [discriminate|].
      destruct (summary_error_ValueError U (str_of e'')) as (m & ->).
      intros H. injection H as <- _. eexists; reflexivity.
    + destruct (summary_error_ValueError U (str_of e'')) as (m & ->).
      intros H. injection H as <- _. eexists; reflexivity.
  - intros H. injection H as <- <-.
    exact (get_transcript_Raise U w video e' l1 E).
Qed.

(** [process_video], case by case: the handler prints, and raises what it
    caught or what the [print] raised. *)
Lemma process_video_cases (U : unicode_db) (w : world) (stdout : console)
  (video : str) :
  process_video U w stdout video =
  match process_video_body U w video with
  | (Ok a, l) => (Ok a, l)
  | (Raise e, l) =>
      match stdout (agent_error_line e) with
      | Ok _ => (Raise e, l)
      | Raise e' => (Raise e', l)
      end
  end.
Proof.
  unfold process_video, catch, bind, lift, raise.
  destruct (process_video_body U w video) as [[a|e] l]; [reflexivity|].
  destruct (stdout (agent_error_line e)); rewrite app_nil_r; reflexivity.
Qed.

(** X14: [analyze_video] returns the response or raises an [HTTPException]
    of status 400 or 500, and it raises the one of status 500 in one case
    only: the body of [process_video] raised an exception, a [ValueError] as
    always, and the [print] of the handler of [process_video] raised an
    exception that is not a [ValueError].  No failure of [get_transcript] or
    of [get_summary] leads to the status 500 by itself. *)
Theorem analyze_video_status_500 (U : unicode_db) (w : world)
  (stdout : console) (video : str) :
  (forall status_code detail l,
      analyze_video U w stdout video = (HTTPException status_code detail, l) ->
      status_code = 400%N \/ status_code = 500%N)
  /\ (forall detail l,
        analyze_video U w stdout video = (HTTPException 500 detail, l)
        <-> detail = unexpected_error_detail
            /\ exists m m',
                 process_video_body U w video = (Raise (ValueError m), l)
                 /\ stdout (agent_error_line (ValueError m))
                    = Raise (OtherError m')).
Proof.
  unfold analyze_video. rewrite process_video_cases.
  destruct (process_video_body U w video) as [[[t s]|e] l1] eqn:B.
  - split.
    + intros c d l H. discriminate.
    + intros d l. split; [discriminate|].
      intros (_ & m & m' & H & _). discriminate.
  - destruct (process_video_body_Raise U w video e l1 B) as (m & ->).
    destruct (stdout (agent_error_line (ValueError m))) as [[]|[m'|m']] eqn:P.
    + split.
      * intros c d l H. injection H as <- _ _. now left.
      * intros d l. split; [discriminate|].
        intros (_ & m0 & m1 & H & P'). injection H as -> _.
        rewrite P in P'. discriminate.
    + split.
      * intros c d l H. injection H as <- _ _. now left.
      * intros d l. split; [discriminate|].
        intros (_ & m0 & m1 & H & P'). injection H as -> _.
        rewrite P in P'. discriminate.
    + split.
      * intros c d l H. injection H as <- _ _. now right.
      * intros d l. split.
        -- intros H. injection H as <- <-. split; [reflexivity|].
           exists m, m'. split; [reflexivity | exact P].
        -- intros (-> & m0 & m1 & H & _). injection H as _ ->. reflexivity.
Qed.

Lemma analyze_video_status_500_witness :
  analyze_video ascii_db private_world closed_stdout some_video
  = (HTTPException 500 unexpected_error_detail, [ExtractInfo some_video]).
Proof.
  apply (proj2 (proj2 (analyze_video_status_500 ascii_db private_world
                         closed_stdout some_video) _ _)).
  split; [reflexivity|].
  exists private_message, (py "[Errno 32] Broken pipe").
  split; reflexivity.
Defined.

(** X15: when [get_transcript] fails, no summary is requested, and what
    [process_video] raises depends on the [print] of its handler: when the
    line is written, the exception of [get_transcript] with the calls of
    [get_transcript], and [analyze_video] raises the status 400 with the
    message of that exception as detail; when the [print] raises, the
    exception of the [print] instead, after the same calls. *)
Theorem analyze_video_transcript_failure (U : unicode_db) (w : world)
  (stdout : console) (video : str) (e : exn) (l : list event) :
  get_transcript U w video = (Raise e, l) ->
  (stdout (agent_error_line e) = Ok tt ->
   process_video U w stdout video = (Raise e, l)
   /\ analyze_video U w stdout video = (HTTPException 400 (str_of e), l))
  /\ (forall e',
        stdout (agent_error_line e) = Raise e' ->
        process_video U w stdout video = (Raise e', l)).
Proof.
  intros H.
  assert (B : process_video_body U w video = (Raise e, l))
    by (rewrite process_video_body_cases, H; reflexivity).
  split.
  - intros P.
    assert (Q : process_video U w stdout video = (Raise e, l))
      by (rewrite process_video_cases, B, P; reflexivity).
    split; [exact Q|]. unfold analyze_video. rewrite Q.
    destruct (get_transcript_Raise U w video e l H) as (m & ->). reflexivity.
  - intros e' P. rewrite process_video_cases, B, P. reflexivity.
Qed.

Lemma analyze_video_transcript_failure_witness :
  (process_video ascii_db private_world utf8_stdout some_video
   = (Raise (ValueError private_message), [ExtractInfo some_video])
   /\ analyze_video ascii_db private_world utf8_stdout some_video
      = (HTTPException 400 private_message, [ExtractInfo some_video]))
  /\ process_video ascii_db private_world ascii_stdout some_video
     = (Raise (ValueError
          (py "'ascii' codec can't encode character '\u274c' in position 0: ordinal not in range(128)")),
        [ExtractInfo some_video]).
Proof.
  split.
  - apply (proj1 (analyze_video_transcript_failure ascii_db private_world
                    utf8_stdout some_video (ValueError private_message)
                    [ExtractInfo some_video] eq_refl)).
    reflexivity.
  - apply (proj2 (analyze_video_transcript_failure ascii_db private_world
                    ascii_stdout some_video (ValueError private_message)
                    [ExtractInfo some_video] eq_refl)).
    reflexivity.
Defined.

(** X16: [analyze_video] answers with a response exactly when
    [get_transcript] returns a transcript, a client can be made, and the
    one request answers; the response holds the whole transcript and that
    answer, while the request held the transcript cut to 8000 characters.
    The standard output plays no part. *)
Theorem analyze_video_success (U : unicode_db) (w : world) (stdout : console)
  (video : str) (t s : str) (l : list event) :
  analyze_video U w stdout video = (Response t s, l)
  <-> exists l1 key,
        get_transcript U w video = (Ok t, l1)
        /\ get_openai_client w = Ok key
        /\ chat_completion w (summary_request (truncate t)) = Ok s
        /\ l = l1 ++ [ChatCompletion (summary_request (truncate t))].
Proof.
  assert (R : forall (r : M (str * str)),
             (exists e l', r = (Raise e, l')) ->
             match r with
             | (Ok (transcript, summary), l0) => (Response transcript summary, l0)
             | (Raise (ValueError m), l0) => (HTTPException 400 m, l0)
             | (Raise (OtherError _), l0) =>
                 (HTTPException 500 unexpected_error_detail, l0)
             end <> (Response t s, l)).
  { intros r (e & l' & ->). destruct e; discriminate. }
  assert (P : forall (e : exn) (l' : list event),
             exists (e' : exn) (l'' : list event),
               match stdout (agent_error_line e) with
               | Ok _ => (@Raise (str * str) e, l')
               | Raise e' => (Raise e', l')
               end = (Raise e', l'')).
  { intros e l'. destruct (stdout (agent_error_line e));
      eexists; eexists; reflexivity. }
  unfold analyze_video.
  rewrite process_video_cases, process_video_body_cases. split.
  - destruct (get_transcript U w video) as [[t'|e] l1] eqn:E.
    + rewrite get_summary_cases.
      destruct (get_openai_client w) as [key|e].
      * destruct (chat_completion w (summary_request (truncate t')))
          as [s'|e] eqn:C.
        -- intros H. injection H as -> -> <-.
           exists l1, key. repeat split. exact C.
        -- intros H. exfalso. revert H. apply R, P.
      * intros H. exfalso. revert H. apply R, P.
    + intros H. exfalso. revert H. apply R, P.
  - intros (l1 & key & -> & K & C & ->).
    rewrite get_summary_cases, K, C. reflexivity.
Qed.

Lemma analyze_video_success_witness :
  analyze_video ascii_db answering_world closed_stdout some_video
  = (Response (py "Welcome to the channel today we bake bread") some_summary,
     [ExtractInfo some_video; Download some_video]
     ++ [ChatCompletion
           (summary_request
              (truncate (py "Welcome to the channel today we bake bread")))]).
Proof.
  apply (proj2 (analyze_video_success ascii_db answering_world closed_stdout
                  some_video _ _ _)).
  exists [ExtractInfo some_video; Download some_video],
    (py "sk-live-0123456789").
  repeat split; reflexivity.
Defined.

(** X17: the key is looked for only after the transcript has been
    acquired: with a transcript but no usable key, and a standard output
    that takes the line of the handler of [process_video],
    [analyze_video] answers with status 400 and the message of the missing
    key, after all the calls of [get_transcript] have been made and without
    a request to the text-generation service. *)
Theorem key_checked_after_transcript (U : unicode_db) (w : world)
  (stdout : console) (video : str) (t : str) (l : list event) (e : exn) :
  get_transcript U w video = (Ok t, l) ->
  get_openai_client w = Raise e ->
  stdout (agent_error_line (ValueError key_not_configured)) = Ok tt ->
  process_video_body U w video = (Raise (ValueError key_not_configured), l)
  /\ analyze_video U w stdout video
     = (HTTPException 400 key_not_configured, l).
Proof.
  intros H K P.
  assert (B : process_video_body U w video
              = (Raise (ValueError key_not_configured), l)).
  { rewrite process_video_body_cases, H, get_summary_cases, K.
    rewrite (get_openai_client_Raise w e K). cbn [str_of].
    rewrite summary_error_key_not_configured, app_nil_r. reflexivity. }
  split; [exact B|].
  unfold analyze_video. rewrite process_video_cases, B, P. reflexivity.
Qed.

Lemma key_checked_after_transcript_witness :
  process_video_body ascii_db download_world some_video
  = (Raise (ValueError key_not_configured),
     [ExtractInfo some_video; Download some_video])
  /\ analyze_video ascii_db download_world utf8_stdout some_video
     = (HTTPException 400 key_not_configured,
        [ExtractInfo some_video; Download some_video]).
Proof.
  apply (key_checked_after_transcript ascii_db download_world utf8_stdout
           some_video (py "Welcome to the channel today we bake bread")
           [ExtractInfo some_video; Download some_video]
           (ValueError key_not_configured));
    reflexivity.
Defined.

(** X18: the transcript of a response has at least 10 characters and no
    newline, and the normalizer leaves it as it is: it is the text that
    [clean_transcript] made of the subtitle payload. *)
Theorem response_transcript_normalized (U : unicode_db) (w : world)
  (stdout : console) (video : str) (t s : str) (l : list event) :
  analyze_video U w stdout video = (Response t s, l) ->
  10 <= List.length t
  /\ ~ In nl t
  /\ clean_transcript (is_decimal U) (is_space U) t = t.
Proof.
  unfold analyze_video.
  rewrite process_video_cases, process_video_body_cases.
  destruct (get_transcript U w video) as [[t'|e] l1] eqn:E.
  2:{ destruct (stdout (agent_error_line e)) as [[]|e'];
        [destruct e | destruct e']; discriminate. }
  destruct (get_summary U w t') as [[s'|e] l2].
  2:{ destruct (stdout (agent_error_line e)) as [[]|e'];
        [destruct e | destruct e']; discriminate. }
  intros H. injection H as -> -> <-.
  destruct (get_transcript_Ok U w video t l1 E) as (p & F).
  destruct (finish_Ok U p t [] F) as (-> & L & _).
  repeat split.
  - eapply Nat.le_trans; [exact L | apply strip_length].
  - apply clean_no_newline.
  - apply clean_fixed.
    + apply clean_no_newline.
    + apply clean_no_tag.
    + unfold clean_transcript. apply strip_leading.
    + unfold clean_transcript. apply strip_trailing.
Qed.

Lemma response_transcript_normalized_witness :
  10 <= List.length (py "Welcome to the channel today we bake bread")
  /\ ~ In nl (py "Welcome to the channel today we bake bread")
  /\ clean_transcript ascii_decimal ascii_space
       (py "Welcome to the channel today we bake bread")
     = py "Welcome to the channel today we bake bread".
Proof.
  apply (response_transcript_normalized ascii_db answering_world utf8_stdout
           some_video (py "Welcome to the channel today we bake bread") some_summary
           ([ExtractInfo some_video; Download some_video]
            ++ [ChatCompletion
                  (summary_request
                     (truncate
                        (py "Welcome to the channel today we bake bread")))])).
  reflexivity.
Defined.

(** X19: when the metadata hold [None] under the key of the manual
    subtitles or under that of the automatic captions, the listing of the
    languages fails before anything is downloaded, and [get_transcript]
    raises the [ValueError] "Could not process video: 'NoneType' object has
    no attribute 'keys'", whatever captions the other map offers. *)
Theorem null_caption_map_reported (U : unicode_db) (w : world) (video : str)
  (info : video_info) :
  new_ydl w = Ok tt ->
  extract_info w video = Ok info ->
  subtitles info = None \/ automatic_captions info = None ->
  get_transcript U w video
  = (Raise (ValueError
              (could_not_process
               ++ py "'NoneType' object has no attribute 'keys'")),
     [ExtractInfo video]).
Proof.
  intros Hy He Hn. unfold get_transcript.
  rewrite (get_transcript_body_info U w video info Hy He).
  assert (A : acquire w video info = (Raise none_has_no_keys, [])).
  { unfold acquire. destruct Hn as [Hn|Hn]; rewrite Hn.
    - reflexivity.
    - destruct (subtitles info); reflexivity. }
  unfold call. unfold bind at 1. rewrite A. reflexivity.
Qed.

Lemma null_caption_map_reported_witness :
  get_transcript ascii_db null_subtitles_world some_video
  = (Raise (ValueError
              (could_not_process
               ++ py "'NoneType' object has no attribute 'keys'")),
     [ExtractInfo some_video]).
Proof.
  apply (null_caption_map_reported ascii_db null_subtitles_world some_video
           null_subtitles_info); [reflexivity | reflexivity | left; reflexivity].
Defined.
